(** * thriftgo: command-line arguments (args.go)

    A shallow embedding of [args.go] of thriftgo, the Thrift compiler
    front-end, and the properties of its argument handling:
    [StringSlice], [Arguments] and its methods [Output], [UsedPlugins],
    [Targets], [MakeLogFunc], [BuildFlags] and [Parse], and the help
    renderer [help] / [align].

    Go strings are byte strings: [string].  A Go slice is a [list]; the nil
    slice is [[]] (the functions below never build an empty slice that is
    not nil, and [len] and [range] do not tell the two apart).  Go [int]
    values that are lengths are in [Z]; the only arithmetic on them is
    [2 + max - len(name)] in [align], far from the 64-bit bounds.

    The process is modelled by a state-and-termination monad [Proc]: a
    computation transforms the [World] (what was written to standard error,
    and which strings were handed to the compact-specification parser) and
    either returns, exits with a status ([os.Exit]) or panics. *)

From Stdlib Require Import String Ascii List ZArith Lia Bool.
From Stdlib Require Import Decimal DecimalNat DecimalString.
Import ListNotations.

Open Scope list_scope.
Open Scope string_scope.

(** ** The Go runtime *)

(** The [error] interface, as the message that [Error()] returns. *)
Definition error : Type := string.

(** Run-time panics that the modelled code can raise. *)
Inductive RuntimeError : Type :=
| SliceBoundsOutOfRange (lo len : Z)   (* s[lo:] with lo > len(s) *)
| IndexOutOfRange (i len : Z)          (* s[i] with i >= len(s) *)
| NegativeRepeatCount                  (* strings.Repeat with count < 0 *)
| FlagRedefined (name : string)        (* flag.Var on a name already bound *)
| PanicError (e : error).              (* panic(err) *)

(** How a computation ends.  [OutOfFuel] is the loop bound of [flag.Parse]
    running out; lemma [flag_Parse_fuel] shows that it never does on the
    flag sets that [BuildFlags] builds. *)
Inductive Result (A : Type) : Type :=
| Done (x : A)
| Exit (status : Z)
| Panic (e : RuntimeError)
| OutOfFuel.

Arguments Done {A} x.
Arguments Exit {A} status.
Arguments Panic {A} e.
Arguments OutOfFuel {A}.

(** What the process has done so far.  [stderr] holds the chunks written
    to standard error, oldest first, one per write.  [compact_calls] holds
    the arguments of the calls made to [plugin.ParseCompactArguments], in
    call order: that function lives outside [args.go], and the log is what
    makes its invocations observable. *)
Record World : Type := mkWorld {
  stderr : list string;
  compact_calls : list string
}.

Definition Proc (A : Type) : Type := World -> Result A * World.

Definition ret {A} (x : A) : Proc A := fun w => (Done x, w).

Definition bind {A B} (m : Proc A) (k : A -> Proc B) : Proc B :=
  fun w =>
    match m w with
    | (Done x, w') => k x w'
    | (Exit s, w') => (Exit s, w')
    | (Panic e, w') => (Panic e, w')
    | (OutOfFuel, w') => (OutOfFuel, w')
    end.

Declare Scope proc_scope.
Delimit Scope proc_scope with proc.
Notation "x <- m ;; k" := (bind m (fun x => k))
  (at level 100, m at next level, right associativity) : proc_scope.
Notation "' p <- m ;; k" := (bind m (fun p => k))
  (at level 100, p pattern, m at next level, right associativity) : proc_scope.
Notation "m ;;; k" := (bind m (fun _ => k))
  (at level 100, right associativity) : proc_scope.
Open Scope proc_scope.

Definition panic {A} (e : RuntimeError) : Proc A := fun w => (Panic e, w).

Definition write_stderr (chunk : string) : Proc unit :=
  fun w => (Done tt, mkWorld (stderr w ++ [chunk])%list (compact_calls w)).

Definition nl : string := String (ascii_of_nat 10) EmptyString.
Definition tab : string := String (ascii_of_nat 9) EmptyString.
Definition dquote : string := String (ascii_of_nat 34) EmptyString.

(** [len(s)] of a string and of a slice. *)
Definition len (s : string) : Z := Z.of_nat (String.length s).
Definition len_slice {A} (s : list A) : Z := Z.of_nat (List.length s).

(** Decimal rendering of a non-negative [int]. *)
Definition itoa (n : Z) : string :=
  NilEmpty.string_of_uint (Nat.to_uint (Z.to_nat n)).

(** [s[lo:]] on a slice: panics when [lo] exceeds the length. *)
Definition slice_from {A} (s : list A) (lo : nat) : Proc (list A) :=
  if (lo <=? List.length s)%nat then ret (skipn lo s)
  else panic (SliceBoundsOutOfRange (Z.of_nat lo) (len_slice s)).

(** [s[i]] on a slice: panics when [i] is not below the length. *)
Definition index {A} (s : list A) (i : nat) : Proc A :=
  match nth_error s i with
  | Some x => ret x
  | None => panic (IndexOutOfRange (Z.of_nat i) (len_slice s))
  end.

Module strings.

(** [strings.Join(elems, sep)]. *)
Fixpoint Join (elems : list string) (sep : string) : string :=
  match elems with
  | [] => ""
  | [e] => e
  | e :: rest => e ++ sep ++ Join rest sep
  end.

Fixpoint repeat_nat (s : string) (n : nat) : string :=
  match n with
  | O => ""
  | S n' => s ++ repeat_nat s n'
  end.

(** [strings.Repeat(s, count)]: panics on a negative count. *)
Definition Repeat (s : string) (count : Z) : Proc string :=
  if (count <? 0)%Z then panic NegativeRepeatCount
  else ret (repeat_nat s (Z.to_nat count)).

End strings.

Module fmt.

(** [fmt.Sprintln(v...)]: the operands in their default format, always
    separated by one space, and a newline.  An operand is represented by
    its default rendering; a string operand renders as itself. *)
Definition Sprintln (v : list string) : string := strings.Join v " " ++ nl.

(** [fmt.Fprintln(os.Stderr, v...)]. *)
Definition Fprintln_stderr (v : list string) : Proc unit :=
  write_stderr (Sprintln v).

End fmt.

(** The builtin [println]: operands separated by spaces, then a newline,
    on standard error. *)
Definition println (v : list string) : Proc unit :=
  write_stderr (strings.Join v " " ++ nl).

Module os.

Definition Exit {A} (status : Z) : Proc A := fun w => (Exit status, w).

End os.

Module log.

(** A [*log.Logger] on [os.Stderr]. *)
Record Logger : Type := New { prefix : string; flag : Z }.

Definition ends_with_newline (s : string) : bool :=
  match String.length s with
  | O => false
  | S n => match String.get n s with
           | Some c => Ascii.eqb c (ascii_of_nat 10)
           | None => false
           end
  end.

(** [Logger.Output]: with [flag = 0] the header is the prefix alone; a
    newline is added when the message does not end in one; the buffer
    goes out in one write. *)
Definition Output (l : Logger) (s : string) : Proc unit :=
  write_stderr (prefix l ++ s ++ (if ends_with_newline s then "" else nl)).

Definition Println (l : Logger) (v : list string) : Proc unit :=
  Output l (fmt.Sprintln v).

End log.

Module strconv.

Definition mem_string (s : string) (l : list string) : bool :=
  existsb (String.eqb s) l.

(** [strconv.ParseBool]; [None] is its syntax error. *)
Definition ParseBool (str : string) : option bool :=
  if mem_string str ["1"; "t"; "T"; "TRUE"; "true"; "True"] then Some true
  else if mem_string str ["0"; "f"; "F"; "FALSE"; "false"; "False"]
  then Some false
  else None.

Definition FormatBool (b : bool) : string := if b then "true" else "false".

End strconv.

(** ** Package [flag] of the Go standard library

    [args.go] builds a [flag.FlagSet] and parses with it, so the part of
    the package that [BuildFlags] and [Parse] run is modelled here after the
    library's [flag.go]: [Value], [FlagSet], [Var], [BoolVar], [StringVar],
    [parseOne] and [Parse].  The flag values hold pointers into the
    caller's storage [Mem]; a pointer is a pair of accessors.  The
    bookkeeping of [f.parsed] and [f.actual], which nothing here reads, is
    left out. *)
Module flag.

Inductive ErrorHandling : Type :=
| ContinueOnError
| ExitOnError
| PanicOnError.

Definition ErrHelp : error := "flag: help requested".
Definition errParse : error := "parse error".

(** [s[i] == c] on bytes. *)
Definition byte_is (s : string) (i : nat) (c : ascii) : bool :=
  match String.get i s with
  | Some b => Ascii.eqb b c
  | None => false
  end.

(** [s[n:]] for [n <= len(s)]. *)
Definition str_from (n : nat) (s : string) : string :=
  String.substring n (String.length s - n) s.

Section Storage.

Variable Mem : Type.
(** [strconv.Quote], the rendering of the [%q] verb. *)
Variable Quote : string -> string.

Record Ptr (T : Type) : Type := mkPtr {
  load : Mem -> T;
  store : T -> Mem -> Mem
}.
Arguments load {T} p m.
Arguments store {T} p v m.

(** The interface [flag.Value], with the optional [IsBoolFlag]. *)
Record Value : Type := mkValue {
  SetValue : string -> Mem -> Mem * option error;
  String : Mem -> string;
  IsBoolFlag : bool
}.

Definition boolValue (p : Ptr bool) : Value :=
  {| SetValue := fun s m =>
       match strconv.ParseBool s with
       | Some v => (store p v m, None)
       | None => (store p false m, Some errParse)
       end;
     String := fun m => strconv.FormatBool (load p m);
     IsBoolFlag := true |}.

Definition stringValue (p : Ptr string) : Value :=
  {| SetValue := fun s m => (store p s m, None);
     String := fun m => load p m;
     IsBoolFlag := false |}.

Record FlagSet : Type := mkFlagSet {
  Usage : Proc unit;
  name : string;
  formal : list (string * Value);
  args : list string;
  errorHandling : ErrorHandling
}.

Definition set_Usage (f : FlagSet) (u : Proc unit) : FlagSet :=
  mkFlagSet u (name f) (formal f) (args f) (errorHandling f).
Definition set_formal (f : FlagSet) (fm : list (string * Value)) : FlagSet :=
  mkFlagSet (Usage f) (name f) fm (args f) (errorHandling f).
Definition set_args (f : FlagSet) (l : list string) : FlagSet :=
  mkFlagSet (Usage f) (name f) (formal f) l (errorHandling f).

(** [f.formal[name]]. *)
Fixpoint lookup (nm : string) (fm : list (string * Value)) : option Value :=
  match fm with
  | [] => None
  | (k, v) :: rest => if String.eqb k nm then Some v else lookup nm rest
  end.

(** The library's default usage prints this header and then the list of
    registered flags; [BuildFlags] replaces it by [help] before
    anything can call it, and the list is not rendered here. *)
Definition defaultUsage (nm : string) : Proc unit :=
  if String.eqb nm "" then write_stderr ("Usage:" ++ nl)
  else write_stderr ("Usage of " ++ nm ++ ":" ++ nl).

Definition NewFlagSet (nm : string) (eh : ErrorHandling) : FlagSet :=
  mkFlagSet (defaultUsage nm) nm [] [] eh.

(** [f.Var(value, name, usage)]: binding a name twice panics. *)
Definition Var (f : FlagSet) (value : Value) (nm : string) : Proc FlagSet :=
  match lookup nm (formal f) with
  | Some _ =>
      let msg := if String.eqb (name f) ""
                 then "flag redefined: " ++ nm
                 else name f ++ " flag redefined: " ++ nm in
      fmt.Fprintln_stderr [msg] ;;;
      panic (FlagRedefined nm)
  | None => ret (set_formal f (formal f ++ [(nm, value)])%list)
  end.

(** [f.BoolVar(p, name, value, usage)]: [*p = value] happens when the
    flag is declared. *)
Definition BoolVar (f : FlagSet) (m : Mem) (p : Ptr bool) (nm : string)
    (value : bool) : Proc (FlagSet * Mem) :=
  let m := store p value m in
  f <- Var f (boolValue p) nm ;;
  ret (f, m).

Definition StringVar (f : FlagSet) (m : Mem) (p : Ptr string) (nm : string)
    (value : string) : Proc (FlagSet * Mem) :=
  let m := store p value m in
  f <- Var f (stringValue p) nm ;;
  ret (f, m).

Definition usage (f : FlagSet) : Proc unit := Usage f.

(** [f.failf]: print the error, print the usage, return the error. *)
Definition failf (f : FlagSet) (msg : string) : Proc error :=
  fmt.Fprintln_stderr [msg] ;;;
  usage f ;;;
  ret msg.

(** The scan [for i := 1; i < len(name); i++] for the first ['=']:
    the name, whether a value is attached, and the value. *)
Definition split_value (nm : string) : string * bool * string :=
  match String.index 1 "=" nm with
  | Some i => (String.substring 0 i nm, true, str_from (S i) nm)
  | None => (nm, false, "")
  end.

(** [f.parseOne]: the flag set and storage afterwards, whether a flag
    was seen, and the error. *)
Definition parseOne (f : FlagSet) (m : Mem)
    : Proc (FlagSet * Mem * bool * option error) :=
  match args f with
  | [] => ret (f, m, false, None)
  | s :: rest =>
    if (String.length s <? 2)%nat || negb (byte_is s 0 "-")
    then ret (f, m, false, None)
    else
      let numMinuses := if byte_is s 1 "-" then 2%nat else 1%nat in
      if byte_is s 1 "-" && (String.length s =? 2)%nat
      then ret (set_args f rest, m, false, None)
      else
        let nm := str_from numMinuses s in
        if (String.length nm =? 0)%nat || byte_is nm 0 "-" || byte_is nm 0 "="
        then
          err <- failf f ("bad flag syntax: " ++ s) ;;
          ret (f, m, false, Some err)
        else
          let f := set_args f rest in
          let '(nm, hasValue, value) := split_value nm in
          match lookup nm (formal f) with
          | None =>
              if String.eqb nm "help" || String.eqb nm "h"
              then usage f ;;; ret (f, m, false, Some ErrHelp)
              else
                err <- failf f ("flag provided but not defined: -" ++ nm) ;;
                ret (f, m, false, Some err)
          | Some fl =>
              if IsBoolFlag fl
              then
                if hasValue
                then
                  match SetValue fl value m with
                  | (m, Some e) =>
                      err <- failf f ("invalid boolean value " ++ Quote value
                                      ++ " for -" ++ nm ++ ": " ++ e) ;;
                      ret (f, m, false, Some err)
                  | (m, None) => ret (f, m, true, None)
                  end
                else
                  match SetValue fl "true" m with
                  | (m, Some e) =>
                      err <- failf f ("invalid boolean flag " ++ nm ++ ": " ++ e) ;;
                      ret (f, m, false, Some err)
                  | (m, None) => ret (f, m, true, None)
                  end
              else
                match
                  (if hasValue then Some (value, f)
                   else match args f with
                        | v :: rest' => Some (v, set_args f rest')
                        | [] => None
                        end)
                with
                | None =>
                    err <- failf f ("flag needs an argument: -" ++ nm) ;;
                    ret (f, m, false, Some err)
                | Some (value, f) =>
                    match SetValue fl value m with
                    | (m, Some e) =>
                        err <- failf f ("invalid value " ++ Quote value
                                        ++ " for flag -" ++ nm ++ ": " ++ e) ;;
                        ret (f, m, false, Some err)
                    | (m, None) => ret (f, m, true, None)
                    end
                end
          end
  end.

(** The loop of [f.Parse]; each round that sees a flag consumes at
    least one token, so [fuel] above the token count is never used up. *)
Fixpoint parse_loop (fuel : nat) (f : FlagSet) (m : Mem)
    : Proc (FlagSet * Mem * option error) :=
  match fuel with
  | O => fun w => (OutOfFuel, w)
  | S fuel' =>
      '(f, m, seen, err) <- parseOne f m ;;
      if seen : bool then parse_loop fuel' f m
      else
        match err with
        | None => ret (f, m, None)
        | Some e =>
            match errorHandling f with
            | ContinueOnError => ret (f, m, Some e)
            | ExitOnError =>
                if String.eqb e ErrHelp then os.Exit 0 else os.Exit 2
            | PanicOnError => panic (PanicError e)
            end
        end
  end.

(** [f.Parse(arguments)]. *)
Definition Parse (f : FlagSet) (m : Mem) (arguments : list string)
    : Proc (FlagSet * Mem * option error) :=
  parse_loop (S (List.length arguments)) (set_args f arguments) m.

(** [f.Args()]. *)
Definition Args (f : FlagSet) : list string := args f.

End Storage.

Arguments load {Mem T} p m.
Arguments store {Mem T} p v m.
Arguments mkPtr {Mem T} load store.
Arguments SetValue {Mem} v s m.
Arguments String {Mem} v m.
Arguments IsBoolFlag {Mem} v.
Arguments mkValue {Mem} SetValue String IsBoolFlag.
Arguments boolValue {Mem} p.
Arguments stringValue {Mem} p.
Arguments Usage {Mem} f.
Arguments name {Mem} f.
Arguments formal {Mem} f.
Arguments args {Mem} f.
Arguments errorHandling {Mem} f.
Arguments set_Usage {Mem} f u.
Arguments set_formal {Mem} f fm.
Arguments set_args {Mem} f l.
Arguments lookup {Mem} nm fm.
Arguments NewFlagSet {Mem} nm eh.
Arguments Var {Mem} f value nm.
Arguments BoolVar {Mem} f m p nm value.
Arguments StringVar {Mem} f m p nm value.
Arguments usage {Mem} f.
Arguments failf {Mem} f msg.
Arguments parseOne {Mem} Quote f m.
Arguments parse_loop {Mem} Quote fuel f m.
Arguments Parse {Mem} Quote f m arguments.
Arguments Args {Mem} f.

End flag.

(** ** The collaborating packages of thriftgo

    Their declarations are outside [args.go]; the records carry the fields
    and methods that [args.go] uses. *)

Module plugin.

(** [plugin.Option]: [opt.Name], [opt.Desc]. *)
Module Option.
Record t : Type := mk { Name : string; Desc : string }.
End Option.

(** [plugin.Desc]: [desc.Name], [desc.Options]. *)
Record Desc : Type := mkDesc {
  Name : string;
  Options : list Option.t
}.

End plugin.

Module generator.

Record LangSpec : Type := mkLangSpec {
  Language : string;
  Options : list plugin.Option.t
}.

End generator.

Module backend.

(** The interface [backend.Backend]: [b.Name()], [b.Lang()],
    [b.Options()]. *)
Record Backend : Type := mkBackend {
  Name : string;
  Lang : string;
  Options : list plugin.Option.t
}.

(** [backend.LogFunc]; a variadic [...interface{}] is the list of its
    operands (see [fmt.Sprintln]). *)
Record LogFunc : Type := mkLogFunc {
  Info : list string -> Proc unit;
  Warn : list string -> Proc unit;
  MultiWarn : list string -> Proc unit
}.

End backend.

(** ** A sample environment

    Concrete values for what [args.go] takes from outside, to run the model
    on. *)

Module Sample.

Fixpoint split_first (c : ascii) (s : string) : string * option string :=
  match s with
  | EmptyString => ("", None)
  | String a s' =>
      if Ascii.eqb a c then ("", Some s')
      else let (h, t) := split_first c s' in (String a h, t)
  end.

Fixpoint split_all (c : ascii) (s : string) : list string :=
  match s with
  | EmptyString => [""]
  | String a s' =>
      if Ascii.eqb a c then "" :: split_all c s'
      else match split_all c s' with
           | h :: t => String a h :: t
           | [] => [String a ""]
           end
  end.

Definition parse_option (s : string) : plugin.Option.t :=
  match split_first "=" s with
  | (k, Some v) => plugin.Option.mk k v
  | (k, None) => plugin.Option.mk k ""
  end.

(** Modelled from the spec: [plugin.ParseCompactArguments], which is
    declared in package [plugin] and not in [args.go].  The grammar is
    [name[:opt1=val1,opt2[,opt3=val3]]]: the name is mandatory, the
    options are separated by commas, and an option is a bare key or
    [key=value]. *)
Definition ParseCompactArguments (str : string) : plugin.Desc + error :=
  match split_first ":" str with
  | ("", _) => inr "ParseCompactArguments: empty name"
  | (nm, None) => inl (plugin.mkDesc nm [])
  | (nm, Some opts) =>
      inl (plugin.mkDesc nm (map parse_option (split_all "," opts)))
  end.

Definition Version : string := "0.0.1".

Definition AllBackend : list backend.Backend :=
  [backend.mkBackend "go" "Go"
     [plugin.Option.mk "a" "first"; plugin.Option.mk "bb" ""]].

Definition os_Args : list string := ["thriftgo"; "-i"; "inc"; "a.thrift"].

(** A quoting function for printable text without quotes or
    backslashes, where [strconv.Quote] only adds the quotes. *)
Definition Quote (s : string) : string := dquote ++ s ++ dquote.

Definition println_error (e : error) : string := "(0x0,0x0)".

Definition w0 : World := mkWorld [] [].

(** Two options of a backend, named as in the help-alignment example. *)
Definition opt_a : plugin.Option.t := plugin.Option.mk "a" "x".
Definition opt_bb : plugin.Option.t := plugin.Option.mk "bb" "y".

End Sample.

(** ** [args.go] *)

Section Args.

(** The package variable [Version]. *)
Variable Version : string.
(** The backends that [g.AllBackend()] returns. *)
Variable AllBackend : list backend.Backend.
(** The process's own [os.Args]. *)
Variable os_Args : list string.
(** [plugin.ParseCompactArguments]: a descriptor or an error. *)
Variable ParseCompactArguments : string -> plugin.Desc + error.
(** [strconv.Quote], behind the [%q] of the flag package's messages. *)
Variable Quote : string -> string.
(** What the builtin [println] writes for an [error] value (its two
    machine words). *)
Variable println_error : error -> string.

(** [StringSlice] implements the [flag.Value] interface on string
    slices. *)
Definition StringSlice : Type := list string.

(** [fmt.Sprintf("%v", *ss)]. *)
Definition StringSlice_String (ss : StringSlice) : string :=
  "[" ++ strings.Join ss " " ++ "]".

(** [Set]: the slice afterwards and the returned error. *)
Definition StringSlice_Set (ss : StringSlice) (value : string)
    : StringSlice * option error :=
  ((ss ++ [value])%list, None).

Record Arguments : Type := mkArguments {
  AskVersion : bool;
  Recursive : bool;
  Verbose : bool;
  Quiet : bool;
  OutputPath : string;
  Includes : StringSlice;
  Plugins : StringSlice;
  Langs : StringSlice;
  IDL : string
}.

(** The zero value of [Arguments]. *)
Definition zero_Arguments : Arguments :=
  mkArguments false false false false "" [] [] [] "".

Definition Output (a : Arguments) (lang : string) : string :=
  if (len (OutputPath a) >? 0)%Z then OutputPath a
  else "./gen-" ++ lang.

(** A call of [plugin.ParseCompactArguments], entered in the log. *)
Definition call_ParseCompactArguments (str : string)
    : Proc (plugin.Desc + error) :=
  fun w =>
    (Done (ParseCompactArguments str),
     mkWorld (stderr w) (compact_calls w ++ [str])%list).

(** The loop of [UsedPlugins] over the rest of [a.Plugins], with the
    named result [descs] so far.  The [err] of the loop body shadows the
    named result [err], which is still nil at the final [return]. *)
Fixpoint UsedPlugins_range (strs : list string) (descs : list plugin.Desc)
    : Proc (list plugin.Desc * option error) :=
  match strs with
  | [] => ret (descs, None)
  | str :: strs' =>
      r <- call_ParseCompactArguments str ;;
      match r with
      | inr err => ret ([], Some err)
      | inl desc => UsedPlugins_range strs' (descs ++ [desc])%list
      end
  end.

Definition UsedPlugins (a : Arguments)
    : Proc (list plugin.Desc * option error) :=
  UsedPlugins_range (Plugins a) [].

Fixpoint Targets_range (langs : list string) (specs : list generator.LangSpec)
    : Proc (list generator.LangSpec * option error) :=
  match langs with
  | [] => ret (specs, None)
  | lang :: langs' =>
      r <- call_ParseCompactArguments lang ;;
      match r with
      | inr err => ret ([], Some err)
      | inl desc =>
          let spec := generator.mkLangSpec (plugin.Name desc)
                                           (plugin.Options desc) in
          Targets_range langs' (specs ++ [spec])%list
      end
  end.

Definition Targets (a : Arguments)
    : Proc (list generator.LangSpec * option error) :=
  Targets_range (Langs a) [].

(** The body of [MultiWarn] when it is active. *)
Fixpoint MultiWarn_range (logger : log.Logger) (ws : list string) : Proc unit :=
  match ws with
  | [] => ret tt
  | w :: ws' => log.Println logger [w] ;;; MultiWarn_range logger ws'
  end.

Definition MakeLogFunc (a : Arguments) : backend.LogFunc :=
  let info :=
    if Verbose a && negb (Quiet a)
    then let logger := log.New "[INFO] " 0 in
         fun v => log.Println logger v
    else fun v => ret tt in
  if negb (Quiet a)
  then let logger := log.New "[WARN] " 0 in
       backend.mkLogFunc info
         (fun v => log.Println logger v)
         (fun ws => MultiWarn_range logger ws)
  else backend.mkLogFunc info (fun v => ret tt) (fun ws => ret tt).

(** The first loop of [align]: [names], [descs] and [max]. *)
Fixpoint align_collect (opts : list plugin.Option.t)
    (names descs : list string) (max : Z) : list string * list string * Z :=
  match opts with
  | [] => (names, descs, max)
  | opt :: opts' =>
      let names := (names ++ [plugin.Option.Name opt])%list in
      let descs := (descs ++ [plugin.Option.Desc opt])%list in
      let max := if (max <=? len (plugin.Option.Name opt))%Z
                 then len (plugin.Option.Name opt) else max in
      align_collect opts' names descs max
  end.

(** One round of the second loop: the row for index [i]. *)
Definition align_row (names descs : list string) (max : Z) (i : nat)
    : Proc string :=
  name_i <- index names i ;;
  let rest := (2 + max - len name_i)%Z in
  pad <- strings.Repeat " " rest ;;
  desc_i <- index descs i ;;
  ret ("    " ++ name_i ++ ":" ++ pad ++ desc_i).

(** The second loop, [for i := range names], over the indices left. *)
Fixpoint align_range (names descs : list string) (max : Z)
    (idxs : list nat) (ss : list string) : Proc (list string) :=
  match idxs with
  | [] => ret ss
  | i :: idxs' =>
      row <- align_row names descs max i ;;
      align_range names descs max idxs' (ss ++ [row])%list
  end.

(** The slice [ss] of [align] when its loops are done. *)
Definition align_ss (opts : list plugin.Option.t) : Proc (list string) :=
  let '(names, descs, max) := align_collect opts [] [] 0%Z in
  align_range names descs max (seq 0 (List.length names)) [].

(** [align] the help strings for plugin options. *)
Definition align (opts : list plugin.Option.t) : Proc string :=
  ss <- align_ss opts ;;
  ret (strings.Join ss nl).

Definition usage_text : string :=
  strings.Join
    [ "Usage: thriftgo [options] file";
      "Options:";
      "  --version           Print the compiler version and exit.";
      "  -h, --help          Print help message and exit.";
      "  -i, --include dir   Add a search path for includes.";
      "  -o, --out dir" ++ tab
        ++ "      Set the ouput location for generated files. (default: ./gen-*)";
      "  -r, --recurse       Generate codes for includes recursively.";
      "  -v, --verbose       Output detail logs.";
      "  -q, --quiet         Suppress all warnings and informatic logs.";
      "  -g, --gen STR       Specify the target langauge.";
      "                      STR has the form language[:key1=val1[,key2[,key3=val3]]].";
      "                      Keys and values are options passed to the backend.";
      "                      Many options will not require values. Boolean options accept";
      "                      " ++ dquote ++ "false" ++ dquote ++ ", "
        ++ dquote ++ "true" ++ dquote ++ " and " ++ dquote ++ dquote
        ++ " (emtpy is treated as " ++ dquote ++ "true" ++ dquote ++ ").";
      "  -p, --plugin STR    Specify an external plugin to invoke.";
      "                      STR has the form plugin[=path][:key1=val1[,key2[,key3=val3]]].";
      "";
      "Available generators (and options):";
      "" ]
    nl.

(** The loop of [help] over the backends. *)
Fixpoint help_range (bs : list backend.Backend) : Proc unit :=
  match bs with
  | [] => ret tt
  | b :: bs' =>
      let name := backend.Name b in
      let lang := backend.Lang b in
      println ["  " ++ name ++ " (" ++ lang ++ "):"] ;;;
      rows <- align (backend.Options b) ;;
      println [rows] ;;;
      help_range bs'
  end.

Definition help : Proc unit :=
  println ["Version:"; Version] ;;;
  println [usage_text] ;;;
  help_range AllBackend ;;;
  println [] ;;;
  os.Exit 2.

(** The pointers [&a.AskVersion], ... that the flags are bound to. *)
Definition p_AskVersion : flag.Ptr Arguments bool :=
  flag.mkPtr AskVersion
    (fun v a => mkArguments v (Recursive a) (Verbose a) (Quiet a)
                  (OutputPath a) (Includes a) (Plugins a) (Langs a) (IDL a)).
Definition p_Recursive : flag.Ptr Arguments bool :=
  flag.mkPtr Recursive
    (fun v a => mkArguments (AskVersion a) v (Verbose a) (Quiet a)
                  (OutputPath a) (Includes a) (Plugins a) (Langs a) (IDL a)).
Definition p_Verbose : flag.Ptr Arguments bool :=
  flag.mkPtr Verbose
    (fun v a => mkArguments (AskVersion a) (Recursive a) v (Quiet a)
                  (OutputPath a) (Includes a) (Plugins a) (Langs a) (IDL a)).
Definition p_Quiet : flag.Ptr Arguments bool :=
  flag.mkPtr Quiet
    (fun v a => mkArguments (AskVersion a) (Recursive a) (Verbose a) v
                  (OutputPath a) (Includes a) (Plugins a) (Langs a) (IDL a)).
Definition p_OutputPath : flag.Ptr Arguments string :=
  flag.mkPtr OutputPath
    (fun v a => mkArguments (AskVersion a) (Recursive a) (Verbose a) (Quiet a)
                  v (Includes a) (Plugins a) (Langs a) (IDL a)).
Definition p_Includes : flag.Ptr Arguments StringSlice :=
  flag.mkPtr Includes
    (fun v a => mkArguments (AskVersion a) (Recursive a) (Verbose a) (Quiet a)
                  (OutputPath a) v (Plugins a) (Langs a) (IDL a)).
Definition p_Plugins : flag.Ptr Arguments StringSlice :=
  flag.mkPtr Plugins
    (fun v a => mkArguments (AskVersion a) (Recursive a) (Verbose a) (Quiet a)
                  (OutputPath a) (Includes a) v (Langs a) (IDL a)).
Definition p_Langs : flag.Ptr Arguments StringSlice :=
  flag.mkPtr Langs
    (fun v a => mkArguments (AskVersion a) (Recursive a) (Verbose a) (Quiet a)
                  (OutputPath a) (Includes a) (Plugins a) v (IDL a)).
Definition p_IDL : flag.Ptr Arguments string :=
  flag.mkPtr IDL
    (fun v a => mkArguments (AskVersion a) (Recursive a) (Verbose a) (Quiet a)
                  (OutputPath a) (Includes a) (Plugins a) (Langs a) v).

(** A [*StringSlice] as a [flag.Value]: it has no [IsBoolFlag]. *)
Definition StringSlice_Value (p : flag.Ptr Arguments StringSlice)
    : flag.Value Arguments :=
  flag.mkValue
    (fun value a =>
       let (ss, err) := StringSlice_Set (flag.load p a) value in
       (flag.store p ss a, err))
    (fun a => StringSlice_String (flag.load p a))
    false.

(** [BuildFlags] initializes command line flags. *)
Definition BuildFlags (a : Arguments)
    : Proc (flag.FlagSet Arguments * Arguments) :=
  name <- index os_Args 0 ;;
  let f := flag.NewFlagSet name flag.ContinueOnError in

  '(f, a) <- flag.BoolVar f a p_AskVersion "version" false ;;

  '(f, a) <- flag.BoolVar f a p_Recursive "r" false ;;
  '(f, a) <- flag.BoolVar f a p_Recursive "recurse" false ;;

  '(f, a) <- flag.BoolVar f a p_Verbose "v" false ;;
  '(f, a) <- flag.BoolVar f a p_Verbose "verbose" false ;;

  '(f, a) <- flag.BoolVar f a p_Quiet "q" false ;;
  '(f, a) <- flag.BoolVar f a p_Quiet "quiet" false ;;

  '(f, a) <- flag.StringVar f a p_OutputPath "o" "" ;;
  '(f, a) <- flag.StringVar f a p_OutputPath "out" "" ;;

  f <- flag.Var f (StringSlice_Value p_Includes) "i" ;;
  f <- flag.Var f (StringSlice_Value p_Includes) "include" ;;

  f <- flag.Var f (StringSlice_Value p_Langs) "g" ;;
  f <- flag.Var f (StringSlice_Value p_Langs) "gen" ;;

  f <- flag.Var f (StringSlice_Value p_Plugins) "p" ;;
  f <- flag.Var f (StringSlice_Value p_Plugins) "plugin" ;;

  ret (flag.set_Usage f help, a).

(** [Parse] parses the command line arguments: the receiver afterwards. *)
Definition Parse (a : Arguments) (argv : list string) : Proc Arguments :=
  '(f, a) <- BuildFlags a ;;
  arguments <- slice_from argv 1 ;;
  '(f, a, err) <- flag.Parse Quote f a arguments ;;
  match err with
  | Some e => println [println_error e] ;;; os.Exit 2
  | None =>
      if AskVersion a
      then println ["thriftgo"; Version] ;;; os.Exit 0
      else
        let rest := flag.Args f in
        if negb (len_slice rest =? 1)%Z
        then
          println ["require exactly 1 argument for the IDL parameter, got:";
                   itoa (len_slice rest)] ;;;
          os.Exit 2
        else
          idl <- index rest 0 ;;
          ret (flag.store p_IDL idl a)
  end.

(** ** Vocabulary of the specification *)

(** The world after one more chunk on standard error. *)
Definition wrote (w : World) (chunks : list string) : World :=
  mkWorld (stderr w ++ chunks)%list (compact_calls w).

(** The world after more calls of the compact-specification parser. *)
Definition called (w : World) (strs : list string) : World :=
  mkWorld (stderr w) (compact_calls w ++ strs)%list.

(** An emitter is a no-op: it returns and leaves the world as it is. *)
Definition no_op (emit : list string -> Proc unit) : Prop :=
  forall v w, emit v w = (Done tt, w).

(** An emitter is active with a tag: every call writes one line, the tag
    and then the operands separated by spaces. *)
Definition active (tag : string) (emit : list string -> Proc unit) : Prop :=
  forall v w, emit v w = (Done tt, wrote w [tag ++ strings.Join v " " ++ nl]).

(** The line of one message of a batch. *)
Definition tagged_line (tag msg : string) : string := tag ++ msg ++ nl.

(** A batched emitter is active with a tag: every call writes one line per
    message, in the order of the batch. *)
Definition active_batch (tag : string) (emit : list string -> Proc unit)
    : Prop :=
  forall ws w, emit ws w = (Done tt, wrote w (map (tagged_line tag) ws)).

(** The target descriptor that [Targets] builds from a parsed one. *)
Definition to_spec (desc : plugin.Desc) : generator.LangSpec :=
  generator.mkLangSpec (plugin.Name desc) (plugin.Options desc).

(** Every string of [strs] parses, and [descs] are the descriptors, in the
    order of [strs]. *)
Definition all_parse (strs : list string) (descs : list plugin.Desc) : Prop :=
  Forall2 (fun str desc => ParseCompactArguments str = inl desc) strs descs.

(** The description column of a row begins at offset [k]: the row is [k]
    characters followed by the description. *)
Definition description_at (k : nat) (row desc : string) : Prop :=
  exists pre, row = pre ++ desc /\ String.length pre = k.

(** The maximum option-name length across an option list. *)
Definition max_name_length (opts : list plugin.Option.t) : nat :=
  fold_right Nat.max 0%nat
    (map (fun opt => String.length (plugin.Option.Name opt)) opts).

(** The rows that [align] renders for an option list are its options, one
    row each and in order, with every description at the offset
    [offset opts]. *)
Definition rows_aligned (offset : list plugin.Option.t -> nat)
    (opts : list plugin.Option.t) : Prop :=
  forall w, exists ss,
    align_ss opts w = (Done ss, w) /\
    align opts w = (Done (strings.Join ss nl), w) /\
    List.length ss = List.length opts /\
    forall i opt row,
      nth_error opts i = Some opt -> nth_error ss i = Some row ->
      description_at (offset opts) row (plugin.Option.Desc opt).

(** The row of one option when the longest name has [m] bytes. *)
Definition row_of (m : nat) (opt : plugin.Option.t) : string :=
  "    " ++ plugin.Option.Name opt ++ ":"
  ++ strings.repeat_nat " " (2 + m - String.length (plugin.Option.Name opt))
  ++ plugin.Option.Desc opt.

(** A token that stops the flag parser without being consumed: shorter
    than two bytes, or not starting with a dash. *)
Definition is_positional (s : string) : bool :=
  (String.length s <? 2)%nat || negb (flag.byte_is s 0 "-").

(** The flag parsing that [Parse] performs on the tokens after the program
    name. *)
Definition parse_flags (a : Arguments) (arguments : list string)
    : Proc (flag.FlagSet Arguments * Arguments * option error) :=
  '(f, a) <- BuildFlags a ;;
  flag.Parse Quote f a arguments.

(** The message of [Parse] for a wrong number of positional arguments. *)
Definition count_message (n : nat) : string :=
  "require exactly 1 argument for the IDL parameter, got: "
  ++ NilEmpty.string_of_uint (Nat.to_uint n) ++ nl.

(** Reading a decimal count back. *)
Definition atoi (s : string) : option nat :=
  option_map Nat.of_uint (NilEmpty.uint_of_string s).

(** The tokens [-i v1 -i v2 ...] of a repeated flag. *)
Definition repeated (flag_token : string) (values : list string) : list string :=
  flat_map (fun v => [flag_token; v]) values.

(** A flag set as [BuildFlags] leaves it: it returns errors to the caller
    and its usage function is [help]. *)
Definition built (f : flag.FlagSet Arguments) : Prop :=
  flag.Usage f = help /\ flag.errorHandling f = flag.ContinueOnError.

(** The bindings that [BuildFlags] declares, in the order of declaration. *)
Definition flag_table : list (string * flag.Value Arguments) :=
  [ ("version", flag.boolValue p_AskVersion);
    ("r", flag.boolValue p_Recursive);
    ("recurse", flag.boolValue p_Recursive);
    ("v", flag.boolValue p_Verbose);
    ("verbose", flag.boolValue p_Verbose);
    ("q", flag.boolValue p_Quiet);
    ("quiet", flag.boolValue p_Quiet);
    ("o", flag.stringValue p_OutputPath);
    ("out", flag.stringValue p_OutputPath);
    ("i", StringSlice_Value p_Includes);
    ("include", StringSlice_Value p_Includes);
    ("g", StringSlice_Value p_Langs);
    ("gen", StringSlice_Value p_Langs);
    ("p", StringSlice_Value p_Plugins);
    ("plugin", StringSlice_Value p_Plugins) ].

(** The flag set of [BuildFlags] with the tokens [tokens] left to parse. *)
Definition flags_with (name : string) (tokens : list string)
    : flag.FlagSet Arguments :=
  flag.mkFlagSet Arguments help name flag_table tokens flag.ContinueOnError.

(** The receiver after [BuildFlags]: declaring a boolean or string flag
    stores its default; the repeatable flags keep what they hold. *)
Definition declared (a : Arguments) : Arguments :=
  mkArguments false false false false ""
    (Includes a) (Plugins a) (Langs a) (IDL a).

(** What one round of the flag parser can do on a flag set of
    [BuildFlags]: return without an error, having written nothing and
    having consumed a token if it saw a flag, or exit with status 2. *)
Definition parseOne_outcome (f : flag.FlagSet Arguments) (w : World)
    (r : Result (flag.FlagSet Arguments * Arguments * bool * option error)
         * World) : Prop :=
  (exists f' m' seen,
      r = (Done (f', m', seen, None), w) /\ built f' /\
      flag.formal f' = flag.formal f /\
      (List.length (flag.args f') <= List.length (flag.args f))%nat /\
      (seen = true ->
       (List.length (flag.args f') < List.length (flag.args f))%nat))
  \/ (exists w', r = (Exit 2, w')).

(** What [flag.Parse] can do on a flag set of [BuildFlags]: return
    without an error and without having written, or exit with status 2. *)
Definition parse_outcome (f : flag.FlagSet Arguments) (w : World)
    (r : Result (flag.FlagSet Arguments * Arguments * option error) * World)
    : Prop :=
  (exists f' m',
      r = (Done (f', m', None), w) /\ built f' /\
      flag.formal f' = flag.formal f /\
      (List.length (flag.args f') <= List.length (flag.args f))%nat)
  \/ (exists w', r = (Exit 2, w')).

(** How [Parse] can end when it does not panic: it returns, or exits with
    status 0 or 2. *)
Definition returns_or_exits (r : Result Arguments * World) : Prop :=
  (exists a' w', r = (Done a', w'))
  \/ (exists w', r = (Exit 0, w'))
  \/ (exists w', r = (Exit 2, w')).

(** *** Vocabulary for the further properties *)

(** The two chunks that [help] writes for one backend: the header line and
    the aligned option rows. *)
Definition backend_lines (b : backend.Backend) : list string :=
  [ ("  " ++ backend.Name b ++ " (" ++ backend.Lang b ++ "):") ++ nl;
    strings.Join
      (map (row_of (max_name_length (backend.Options b))) (backend.Options b))
      nl ++ nl ].

(** Everything that [help] writes. *)
Definition help_output : list string :=
  ([ ("Version: " ++ Version ++ nl)%string; (usage_text ++ nl)%string ]
   ++ flat_map backend_lines AllBackend ++ [ nl ])%list.

(** The repeatable fields of [a'] hold those of [a] and then more. *)
Definition extends (a a' : Arguments) : Prop :=
  exists i p g,
    Includes a' = (Includes a ++ i)%list /\
    Plugins a' = (Plugins a ++ p)%list /\
    Langs a' = (Langs a ++ g)%list.

(** A flag value that only ever appends to the repeatable fields. *)
Definition appending (v : flag.Value Arguments) : Prop :=
  forall s a, extends a (fst (flag.SetValue v s a)).

(** The three repeatable options. *)
Inductive repeatable : Type := r_include | r_gen | r_plugin.

Definition repeatable_eqb (x y : repeatable) : bool :=
  match x, y with
  | r_include, r_include | r_gen, r_gen | r_plugin, r_plugin => true
  | _, _ => false
  end.

(** The option that a token spells, with one dash or two, short or long. *)
Definition repeatable_of (t : string) : option repeatable :=
  if strconv.mem_string t ["-i"; "--i"; "-include"; "--include"]
  then Some r_include
  else if strconv.mem_string t ["-g"; "--g"; "-gen"; "--gen"]
  then Some r_gen
  else if strconv.mem_string t ["-p"; "--p"; "-plugin"; "--plugin"]
  then Some r_plugin
  else None.

(** The tokens of a sequence of (spelling, value) pairs. *)
Definition pair_tokens (entries : list (string * string)) : list string :=
  flat_map (fun e => [fst e; snd e]) entries.

(** The values given to one repeatable option, in command-line order. *)
Definition values_of (k : repeatable) (entries : list (string * string))
    : list string :=
  map snd
    (filter (fun e => match repeatable_of (fst e) with
                      | Some k' => repeatable_eqb k k'
                      | None => false
                      end) entries).

(** The receiver after one more value for a repeatable option. *)
Definition push (k : repeatable) (v : string) (a : Arguments) : Arguments :=
  match k with
  | r_include => flag.store p_Includes (Includes a ++ [v])%list a
  | r_gen => flag.store p_Langs (Langs a ++ [v])%list a
  | r_plugin => flag.store p_Plugins (Plugins a ++ [v])%list a
  end.

(** The receiver after a sequence of (spelling, value) pairs. *)
Definition push_all (entries : list (string * string)) (a : Arguments)
    : Arguments :=
  fold_left
    (fun a e => match repeatable_of (fst e) with
                | Some k => push k (snd e) a
                | None => a
                end) entries a.

(** Every token of the pairs spells a repeatable option. *)
Definition all_repeatable (entries : list (string * string)) : bool :=
  forallb (fun e => match repeatable_of (fst e) with
                    | Some _ => true
                    | None => false
                    end) entries.

(** The boolean options. *)
Inductive switch : Type := s_version | s_recurse | s_verbose | s_quiet.

(** The options that take a value. *)
Inductive valued : Type := v_out | v_repeat (k : repeatable).

(** The boolean option that a token spells. *)
Definition switch_of (t : string) : option switch :=
  if strconv.mem_string t ["-version"; "--version"] then Some s_version
  else if strconv.mem_string t ["-r"; "--r"; "-recurse"; "--recurse"]
  then Some s_recurse
  else if strconv.mem_string t ["-v"; "--v"; "-verbose"; "--verbose"]
  then Some s_verbose
  else if strconv.mem_string t ["-q"; "--q"; "-quiet"; "--quiet"]
  then Some s_quiet
  else None.

(** The valued option that a token spells. *)
Definition valued_of (t : string) : option valued :=
  if strconv.mem_string t ["-o"; "--o"; "-out"; "--out"] then Some v_out
  else option_map v_repeat (repeatable_of t).

(** An option on the command line: a boolean flag on its own, or a flag
    followed by its value as the next token. *)
Inductive cli_option : Type :=
| flag_on (t : string)
| flag_value (t v : string).

Definition option_tokens (o : cli_option) : list string :=
  match o with
  | flag_on t => [t]
  | flag_value t v => [t; v]
  end.

Definition well_spelled (o : cli_option) : bool :=
  match o with
  | flag_on t => match switch_of t with Some _ => true | None => false end
  | flag_value t _ => match valued_of t with Some _ => true | None => false end
  end.

(** The receiver after one option. *)
Definition apply_option (a : Arguments) (o : cli_option) : Arguments :=
  match o with
  | flag_on t =>
      match switch_of t with
      | Some s_version => flag.store p_AskVersion true a
      | Some s_recurse => flag.store p_Recursive true a
      | Some s_verbose => flag.store p_Verbose true a
      | Some s_quiet => flag.store p_Quiet true a
      | None => a
      end
  | flag_value t v =>
      match valued_of t with
      | Some v_out => flag.store p_OutputPath v a
      | Some (v_repeat k) => push k v a
      | None => a
      end
  end.

(** The value of the last [-o] / [--out] among the options, or [""]. *)
Definition last_out (opts : list cli_option) : string :=
  fold_left
    (fun acc o => match o with
                  | flag_value t v =>
                      match valued_of t with
                      | Some v_out => v
                      | _ => acc
                      end
                  | flag_on _ => acc
                  end) opts "".

(** Whether a boolean option is among the options. *)
Definition switched (is_it : switch -> bool) (opts : list cli_option) : bool :=
  existsb (fun o => match o with
                    | flag_on t => match switch_of t with
                                   | Some s => is_it s
                                   | None => false
                                   end
                    | flag_value _ _ => false
                    end) opts.

Definition is_quiet (s : switch) : bool :=
  match s with s_quiet => true | _ => false end.
Definition is_verbose (s : switch) : bool :=
  match s with s_verbose => true | _ => false end.
Definition is_version (s : switch) : bool :=
  match s with s_version => true | _ => false end.

(** Calling an emitter once per message. *)
Fixpoint each (emit : list string -> Proc unit) (ws : list string)
    : Proc unit :=
  match ws with
  | [] => ret tt
  | m :: ws' => emit [m] ;;; each emit ws'
  end.

(** The outcome of [UsedPlugins] with its descriptors turned into target
    descriptors. *)
Definition as_targets
    (r : Result (list plugin.Desc * option error) * World)
    : Result (list generator.LangSpec * option error) * World :=
  match r with
  | (Done (descs, err), w) => (Done (map to_spec descs, err), w)
  | (Exit status, w) => (Exit status, w)
  | (Panic e, w) => (Panic e, w)
  | (OutOfFuel, w) => (OutOfFuel, w)
  end.

(** A flag name that is well formed, carries no [=value], and is neither
    declared by [BuildFlags] nor a spelling of help. *)
Definition undeclared (nm : string) : bool :=
  negb (String.length nm =? 0)%nat
  && negb (flag.byte_is nm 0 "-") && negb (flag.byte_is nm 0 "=")
  && match String.index 1 "=" nm with Some _ => false | None => true end
  && match flag.lookup nm flag_table with Some _ => false | None => true end
  && negb (String.eqb nm "help" || String.eqb nm "h").

(** The names of the flags of [BuildFlags] that take a value. *)
Definition value_flags : list string :=
  ["o"; "out"; "i"; "include"; "g"; "gen"; "p"; "plugin"].

(** ** Properties *)

(** *** Strings *)

Lemma length_append (s t : string) :
  String.length (s ++ t) = (String.length s + String.length t)%nat.
Proof. induction s as [|c s IH]; simpl; [reflexivity | now rewrite IH]. Qed.

Lemma append_assoc (s t u : string) : (s ++ t) ++ u = s ++ t ++ u.
Proof. induction s as [|c s IH]; simpl; [reflexivity | now rewrite IH]. Qed.

Lemma length_repeat_nat (s : string) (n : nat) :
  String.length (strings.repeat_nat s n) = (n * String.length s)%nat.
Proof.
  induction n as [|n IH]; simpl; [reflexivity|].
  now rewrite length_append, IH.
Qed.

Lemma atoi_count (n : nat) :
  atoi (NilEmpty.string_of_uint (Nat.to_uint n)) = Some n.
Proof.
  unfold atoi. rewrite NilEmpty.usu. simpl.
  now rewrite DecimalNat.Unsigned.of_to.
Qed.

(** *** [Output] *)

(** C3: [Output] returns [OutputPath] verbatim when it is not empty,
    whatever the language, and ["./gen-"] followed by the language when it
    is empty.  The result is a function of [OutputPath] and the language
    alone, so calls do not influence each other. *)
Theorem Output_spec (a : Arguments) (lang : string) :
  Output a lang =
    if String.eqb (OutputPath a) "" then "./gen-" ++ lang else OutputPath a.
Proof.
  unfold Output, len.
  destruct (OutputPath a) as [|c s] eqn:E; simpl; reflexivity.
Qed.

(** *** [StringSlice] *)

Lemma fold_Set (values : list string) (ss : StringSlice) :
  fold_left (fun ss v => fst (StringSlice_Set ss v)) values ss
  = (ss ++ values)%list.
Proof.
  revert ss. induction values as [|v vs IH]; intros ss; simpl.
  - now rewrite app_nil_r.
  - rewrite IH, <- app_assoc. reflexivity.
Qed.

(** *** [MakeLogFunc] *)

Lemma wrote_neq (w : World) (c : string) : wrote w [c] <> w.
Proof.
  intros H. apply (f_equal stderr) in H. simpl in H.
  apply (f_equal (@List.length _)) in H. rewrite length_app in H.
  simpl in H. lia.
Qed.

Lemma active_not_no_op (tag : string) (emit : list string -> Proc unit) :
  active tag emit -> no_op emit -> False.
Proof.
  intros Ha Hn. specialize (Ha [] (mkWorld [] [])).
  rewrite (Hn [] (mkWorld [] [])) in Ha.
  apply (f_equal snd) in Ha. cbn [snd] in Ha.
  symmetry in Ha. now apply wrote_neq in Ha.
Qed.

Lemma active_batch_not_no_op (tag : string) (emit : list string -> Proc unit) :
  active_batch tag emit -> no_op emit -> False.
Proof.
  intros Ha Hn. specialize (Ha [""] (mkWorld [] [])).
  rewrite (Hn [""] (mkWorld [] [])) in Ha.
  apply (f_equal snd) in Ha. cbn [snd map] in Ha.
  symmetry in Ha. now apply wrote_neq in Ha.
Qed.

Lemma ends_with_newline_Sprintln (v : list string) :
  log.ends_with_newline (fmt.Sprintln v) = true.
Proof.
  unfold fmt.Sprintln. generalize (strings.Join v " ") as s.
  unfold log.ends_with_newline. intros s.
  rewrite length_append. simpl. rewrite Nat.add_1_r.
  induction s as [|c s IH]; simpl; [reflexivity|].
  destruct (String.length (s ++ nl)) eqn:E.
  - rewrite length_append in E. simpl in E. lia.
  - rewrite length_append in E. simpl in E.
    assert (n = String.length s) by lia. subst n. exact IH.
Qed.

Lemma Println_writes (l : log.Logger) (v : list string) (w : World) :
  log.Println l v w
  = (Done tt, wrote w [log.prefix l ++ strings.Join v " " ++ nl]).
Proof.
  unfold log.Println, log.Output. rewrite ends_with_newline_Sprintln.
  unfold fmt.Sprintln, write_stderr, wrote.
  rewrite append_assoc. simpl.
  replace (nl ++ "") with nl by reflexivity. reflexivity.
Qed.

Lemma MultiWarn_range_writes (l : log.Logger) (ws : list string) (w : World) :
  MultiWarn_range l ws w
  = (Done tt, wrote w (map (tagged_line (log.prefix l)) ws)).
Proof.
  revert w. induction ws as [|m ws IH]; intros w; simpl.
  - unfold ret, wrote. rewrite app_nil_r. now destruct w.
  - unfold bind. rewrite Println_writes, IH. unfold wrote; simpl.
    rewrite <- app_assoc. reflexivity.
Qed.

Lemma Info_active (a : Arguments) :
  Verbose a = true -> Quiet a = false ->
  active "[INFO] " (backend.Info (MakeLogFunc a)).
Proof.
  intros Hv Hq v w. unfold MakeLogFunc. rewrite Hv, Hq. simpl.
  apply Println_writes.
Qed.

Lemma Info_no_op (a : Arguments) :
  Verbose a && negb (Quiet a) = false ->
  no_op (backend.Info (MakeLogFunc a)).
Proof.
  intros H v w. unfold MakeLogFunc. rewrite H.
  destruct (Quiet a); reflexivity.
Qed.

Lemma Warn_active (a : Arguments) :
  Quiet a = false -> active "[WARN] " (backend.Warn (MakeLogFunc a)).
Proof.
  intros Hq v w. unfold MakeLogFunc. rewrite Hq. simpl.
  apply Println_writes.
Qed.

Lemma Warn_no_op (a : Arguments) :
  Quiet a = true -> no_op (backend.Warn (MakeLogFunc a)).
Proof. intros Hq v w. unfold MakeLogFunc. rewrite Hq. reflexivity. Qed.

Lemma MultiWarn_active (a : Arguments) :
  Quiet a = false ->
  active_batch "[WARN] " (backend.MultiWarn (MakeLogFunc a)).
Proof.
  intros Hq ws w. unfold MakeLogFunc. rewrite Hq. simpl.
  apply MultiWarn_range_writes.
Qed.

Lemma MultiWarn_no_op (a : Arguments) :
  Quiet a = true -> no_op (backend.MultiWarn (MakeLogFunc a)).
Proof. intros Hq v w. unfold MakeLogFunc. rewrite Hq. reflexivity. Qed.

(** C4: the Info emitter of [MakeLogFunc] is active exactly when [Verbose]
    is set and [Quiet] is not, the Warn and multi-Warn emitters exactly
    when [Quiet] is not set, and an emitter that is not active is a no-op,
    so [Quiet] silences all three whatever [Verbose] says.  An active
    emitter writes each line behind the tag ["[INFO] "] or ["[WARN] "]. *)
Theorem MakeLogFunc_policy (a : Arguments) :
  let logs := MakeLogFunc a in
  (active "[INFO] " (backend.Info logs)
     <-> Verbose a = true /\ Quiet a = false) /\
  (no_op (backend.Info logs)
     <-> ~ (Verbose a = true /\ Quiet a = false)) /\
  (active "[WARN] " (backend.Warn logs) <-> Quiet a = false) /\
  (no_op (backend.Warn logs) <-> Quiet a = true) /\
  (active_batch "[WARN] " (backend.MultiWarn logs) <-> Quiet a = false) /\
  (no_op (backend.MultiWarn logs) <-> Quiet a = true).
Proof.
  intros logs. subst logs.
  assert (HI : Verbose a && negb (Quiet a) = false ->
               no_op (backend.Info (MakeLogFunc a))) by apply Info_no_op.
  pose proof (Info_active a) as HIa.
  pose proof (Warn_active a) as HWa.
  pose proof (Warn_no_op a) as HWn.
  pose proof (MultiWarn_active a) as HMa.
  pose proof (MultiWarn_no_op a) as HMn.
  destruct (Verbose a), (Quiet a); simpl in HI;
    repeat split; intros; try reflexivity; try discriminate; auto;
    try (exfalso; eapply active_not_no_op; eauto; fail);
    try (exfalso; eapply active_batch_not_no_op; eauto; fail);
    try tauto;
    try (match goal with H : _ /\ _ |- _ => destruct H; discriminate end);
    try (intros [? ?]; try discriminate;
         apply (active_not_no_op "[INFO] " (backend.Info (MakeLogFunc a)));
         auto; fail).
Qed.

(** C8: when [Quiet] is not set, the multi-Warn emitter writes every
    message of the batch as a line of its own, tagged, in the order of the
    batch; when [Quiet] is set it is the function that ignores its batch,
    and a call leaves the world as it is. *)
Theorem MultiWarn_batch (a : Arguments) :
  if Quiet a
  then backend.MultiWarn (MakeLogFunc a) = (fun _ => ret tt)
       /\ forall ws w, backend.MultiWarn (MakeLogFunc a) ws w = (Done tt, w)
  else forall ws w,
         backend.MultiWarn (MakeLogFunc a) ws w
         = (Done tt, wrote w (map (tagged_line "[WARN] ") ws)).
Proof.
  destruct (Quiet a) eqn:Hq.
  - unfold MakeLogFunc. rewrite Hq. simpl. split; reflexivity.
  - apply MultiWarn_active. exact Hq.
Qed.

(** *** [UsedPlugins] and [Targets] *)

Lemma called_nil (w : World) : called w [] = w.
Proof. unfold called. rewrite app_nil_r. now destruct w. Qed.

Lemma called_app (w : World) (l1 l2 : list string) :
  called (called w l1) l2 = called w (l1 ++ l2).
Proof. unfold called; simpl. now rewrite app_assoc. Qed.

Lemma UsedPlugins_range_ok (strs : list string) :
  forall descs acc w,
    all_parse strs descs ->
    UsedPlugins_range strs acc w
    = (Done ((acc ++ descs)%list, None), called w strs).
Proof.
  induction strs as [|s strs IH]; intros descs acc w H; inversion H; subst.
  - simpl. unfold ret. now rewrite app_nil_r, called_nil.
  - simpl. unfold bind, call_ParseCompactArguments.
    match goal with H : ParseCompactArguments s = _ |- _ => rewrite H end.
    erewrite IH by eassumption.
    rewrite <- app_assoc. simpl. f_equal.
    change (mkWorld (stderr w) (compact_calls w ++ [s])%list)
      with (called w [s]).
    now rewrite called_app.
Qed.

Lemma UsedPlugins_range_fail (pre : list string) :
  forall descs bad post err acc w,
    all_parse pre descs ->
    ParseCompactArguments bad = inr err ->
    UsedPlugins_range (pre ++ bad :: post) acc w
    = (Done ([], Some err), called w (pre ++ [bad])).
Proof.
  induction pre as [|s pre IH]; intros descs bad post err acc w H Hbad;
    inversion H; subst; simpl; unfold bind, call_ParseCompactArguments.
  - rewrite Hbad. reflexivity.
  - match goal with H : ParseCompactArguments s = _ |- _ => rewrite H end.
    erewrite IH by eassumption.
    change (mkWorld (stderr w) (compact_calls w ++ [s])%list)
      with (called w [s]).
    now rewrite called_app.
Qed.

Lemma Targets_range_ok (strs : list string) :
  forall descs acc w,
    all_parse strs descs ->
    Targets_range strs acc w
    = (Done ((acc ++ map to_spec descs)%list, None), called w strs).
Proof.
  induction strs as [|s strs IH]; intros descs acc w H; inversion H; subst.
  - simpl. unfold ret. now rewrite app_nil_r, called_nil.
  - simpl. unfold bind, call_ParseCompactArguments.
    match goal with H : ParseCompactArguments s = _ |- _ => rewrite H end.
    erewrite IH by eassumption.
    rewrite <- app_assoc. simpl. f_equal.
    change (mkWorld (stderr w) (compact_calls w ++ [s])%list)
      with (called w [s]).
    now rewrite called_app.
Qed.

Lemma Targets_range_fail (pre : list string) :
  forall descs bad post err acc w,
    all_parse pre descs ->
    ParseCompactArguments bad = inr err ->
    Targets_range (pre ++ bad :: post) acc w
    = (Done ([], Some err), called w (pre ++ [bad])).
Proof.
  induction pre as [|s pre IH]; intros descs bad post err acc w H Hbad;
    inversion H; subst; simpl; unfold bind, call_ParseCompactArguments.
  - rewrite Hbad. reflexivity.
  - match goal with H : ParseCompactArguments s = _ |- _ => rewrite H end.
    erewrite IH by eassumption.
    change (mkWorld (stderr w) (compact_calls w ++ [s])%list)
      with (called w [s]).
    now rewrite called_app.
Qed.

(** C2: [UsedPlugins] (and likewise [Targets]) calls the
    compact-specification parser once per entry, in order.  When every
    entry parses it returns all the descriptors in the original order and
    no error.  When an entry fails after a prefix that parses, it returns
    that error and the nil list, and the parser has been called on the
    prefix and the failing entry only. *)
Theorem resolve_all_or_first_failure (a : Arguments) (w : World) :
  (forall descs,
     all_parse (Plugins a) descs ->
     UsedPlugins a w = (Done (descs, None), called w (Plugins a))) /\
  (forall pre bad post descs err,
     Plugins a = (pre ++ bad :: post)%list ->
     all_parse pre descs ->
     ParseCompactArguments bad = inr err ->
     UsedPlugins a w = (Done ([], Some err), called w (pre ++ [bad]))) /\
  (forall descs,
     all_parse (Langs a) descs ->
     Targets a w = (Done (map to_spec descs, None), called w (Langs a))) /\
  (forall pre bad post descs err,
     Langs a = (pre ++ bad :: post)%list ->
     all_parse pre descs ->
     ParseCompactArguments bad = inr err ->
     Targets a w = (Done ([], Some err), called w (pre ++ [bad]))).
Proof.
  unfold UsedPlugins, Targets. repeat split.
  - intros descs H. now rewrite (UsedPlugins_range_ok _ descs [] w H).
  - intros pre bad post descs err E H Hbad. rewrite E.
    eapply UsedPlugins_range_fail; eassumption.
  - intros descs H. now rewrite (Targets_range_ok _ descs [] w H).
  - intros pre bad post descs err E H Hbad. rewrite E.
    eapply Targets_range_fail; eassumption.
Qed.

(** C9: with no entry in [Plugins] (in [Langs]), [UsedPlugins] ([Targets])
    returns the nil list and no error, and the world is as before: the
    compact-specification parser has not been called. *)
Theorem empty_resolves_to_nil (a : Arguments) (w : World) :
  (Plugins a = [] -> UsedPlugins a w = (Done ([], None), w)) /\
  (Langs a = [] -> Targets a w = (Done ([], None), w)).
Proof.
  unfold UsedPlugins, Targets.
  split; intros E; rewrite E; reflexivity.
Qed.

(** *** [align] *)

Lemma align_collect_spec (opts : list plugin.Option.t) :
  forall names descs max,
    (0 <= max)%Z ->
    align_collect opts names descs max
    = ((names ++ map plugin.Option.Name opts)%list,
       (descs ++ map plugin.Option.Desc opts)%list,
       Z.max max (Z.of_nat (max_name_length opts))).
Proof.
  induction opts as [|o opts IH]; intros names descs max Hmax; simpl.
  - rewrite !app_nil_r. f_equal. unfold max_name_length; simpl. lia.
  - unfold len.
    destruct (Z.leb_spec max (Z.of_nat (String.length (plugin.Option.Name o))));
      rewrite IH by lia; rewrite <- !app_assoc; simpl; f_equal;
      unfold max_name_length; simpl; fold (max_name_length opts); lia.
Qed.

Lemma max_name_length_ge (opts : list plugin.Option.t) (o : plugin.Option.t) :
  In o opts ->
  (String.length (plugin.Option.Name o) <= max_name_length opts)%nat.
Proof.
  induction opts as [|o' opts IH]; intros H; [destruct H|].
  unfold max_name_length; simpl. fold (max_name_length opts).
  destruct H as [-> | H]; [lia|]. specialize (IH H). lia.
Qed.

Lemma bind_Done {A B} (m : Proc A) (k : A -> Proc B) (x : A) (w w' : World) :
  m w = (Done x, w') -> bind m k w = k x w'.
Proof. intros H. unfold bind. now rewrite H. Qed.

Lemma index_Some {A} (s : list A) (i : nat) (x : A) (w : World) :
  nth_error s i = Some x -> index s i w = (Done x, w).
Proof. intros H. unfold index. now rewrite H. Qed.

Lemma Repeat_Done (s : string) (count : Z) (w : World) :
  (0 <= count)%Z ->
  strings.Repeat s count w = (Done (strings.repeat_nat s (Z.to_nat count)), w).
Proof.
  intros H. unfold strings.Repeat.
  destruct (Z.ltb_spec count 0); [lia | reflexivity].
Qed.

Lemma align_row_spec (opts : list plugin.Option.t) (m i : nat)
    (o : plugin.Option.t) (w : World) :
  nth_error opts i = Some o ->
  (String.length (plugin.Option.Name o) <= m)%nat ->
  align_row (map plugin.Option.Name opts) (map plugin.Option.Desc opts)
            (Z.of_nat m) i w
  = (Done (row_of m o), w).
Proof.
  intros Hi Hle. unfold align_row.
  erewrite bind_Done
    by (apply index_Some; rewrite nth_error_map, Hi; reflexivity).
  erewrite bind_Done by (apply Repeat_Done; unfold len; lia).
  erewrite bind_Done
    by (apply index_Some; rewrite nth_error_map, Hi; reflexivity).
  unfold ret, row_of, len.
  replace (Z.to_nat (2 + Z.of_nat m
                     - Z.of_nat (String.length (plugin.Option.Name o))))
    with (2 + m - String.length (plugin.Option.Name o))%nat by lia.
  reflexivity.
Qed.

Lemma nth_error_skipn_cons {A} (l : list A) (k : nat) :
  (k < List.length l)%nat ->
  exists x, nth_error l k = Some x /\ skipn k l = x :: skipn (S k) l.
Proof.
  revert k. induction l as [|y l IH]; intros k H; simpl in H; [lia|].
  destruct k as [|k].
  - exists y. split; reflexivity.
  - destruct (IH k) as [x [E1 E2]]; [lia|].
    exists x. split; [exact E1 | exact E2].
Qed.

Lemma align_range_spec (opts : list plugin.Option.t) (w : World) :
  forall cnt k ss,
    (k + cnt = List.length opts)%nat ->
    align_range (map plugin.Option.Name opts) (map plugin.Option.Desc opts)
                (Z.of_nat (max_name_length opts)) (seq k cnt) ss w
    = (Done (ss ++ map (row_of (max_name_length opts)) (skipn k opts))%list, w).
Proof.
  induction cnt as [|cnt IH]; intros k ss H; simpl.
  - rewrite skipn_all2 by lia. simpl. now rewrite app_nil_r.
  - destruct (nth_error_skipn_cons opts k) as [o [E1 E2]]; [lia|].
    unfold bind.
    rewrite (align_row_spec opts _ k o w E1).
    + rewrite IH by lia. rewrite E2. simpl.
      rewrite <- app_assoc. reflexivity.
    + apply max_name_length_ge. eapply nth_error_In; eassumption.
Qed.

(** The rows of [align]: one per option, in order; it never panics. *)
Lemma align_ss_rows (opts : list plugin.Option.t) (w : World) :
  align_ss opts w = (Done (map (row_of (max_name_length opts)) opts), w).
Proof.
  unfold align_ss. rewrite align_collect_spec by lia. simpl.
  rewrite Z.max_r by lia. rewrite length_map.
  now rewrite (align_range_spec opts w (List.length opts) 0 []).
Qed.

Lemma align_total (opts : list plugin.Option.t) (w : World) :
  align opts w
  = (Done (strings.Join (map (row_of (max_name_length opts)) opts) nl), w).
Proof. unfold align, bind. now rewrite align_ss_rows. Qed.

Lemma row_of_description (m : nat) (o : plugin.Option.t) :
  (String.length (plugin.Option.Name o) <= m)%nat ->
  description_at (4 + m + 3) (row_of m o) (plugin.Option.Desc o).
Proof.
  intros Hle.
  exists ("    " ++ plugin.Option.Name o ++ ":"
          ++ strings.repeat_nat " "
               (2 + m - String.length (plugin.Option.Name o))).
  split.
  - unfold row_of. now rewrite !append_assoc.
  - rewrite !length_append, length_repeat_nat.
    change (String.length "    ") with 4%nat.
    change (String.length ":") with 1%nat.
    change (String.length " ") with 1%nat. lia.
Qed.

(** C7, as amended: every row that [align] renders has its description at
    the offset [4 + (maximum option-name length of the list) + 3] from the
    start of the row, whatever the length of the option's own name: four
    spaces, the name, a colon, and padding up to two columns past the
    longest name.  There is one row per option, in order, also for an
    option with an empty description, whose row ends after the padding. *)
Theorem align_description_offset (opts : list plugin.Option.t) :
  rows_aligned (fun opts => (4 + max_name_length opts + 3)%nat) opts.
Proof.
  intros w. exists (map (row_of (max_name_length opts)) opts).
  split; [apply align_ss_rows|].
  split; [apply align_total|].
  split; [apply length_map|].
  intros i opt row Hi Hrow.
  rewrite nth_error_map, Hi in Hrow. simpl in Hrow.
  injection Hrow as <-.
  apply row_of_description, max_name_length_ge.
  eapply nth_error_In; eassumption.
Qed.

(** *** [help] and the flag set *)

Lemma bind_Exit {A B} (m : Proc A) (k : A -> Proc B) (st : Z) (w w' : World) :
  m w = (Exit st, w') -> bind m k w = (Exit st, w').
Proof. intros H. unfold bind. now rewrite H. Qed.

Lemma println_Done (v : list string) (w : World) :
  println v w = (Done tt, wrote w [strings.Join v " " ++ nl]).
Proof. reflexivity. Qed.

Lemma help_range_Done (bs : list backend.Backend) :
  forall w, exists w', help_range bs w = (Done tt, w').
Proof.
  induction bs as [|b bs IH]; intros w; simpl.
  - exists w. reflexivity.
  - erewrite bind_Done by apply println_Done.
    erewrite bind_Done by apply align_total.
    erewrite bind_Done by apply println_Done.
    apply IH.
Qed.

(** [help] prints and exits with status 2. *)
Lemma help_exits (w : World) : exists w', help w = (Exit 2, w').
Proof.
  unfold help.
  erewrite bind_Done by apply println_Done.
  erewrite bind_Done by apply println_Done.
  match goal with |- context [bind (help_range AllBackend) _ ?w0] =>
    destruct (help_range_Done AllBackend w0) as [w1 E] end.
  erewrite bind_Done by exact E.
  erewrite bind_Done by apply println_Done.
  eexists. reflexivity.
Qed.

Lemma failf_exits (f : flag.FlagSet Arguments) (msg : string) (w : World) :
  built f -> exists w', flag.failf f msg w = (Exit 2, w').
Proof.
  intros [Hu _]. unfold flag.failf, flag.usage. rewrite Hu.
  erewrite bind_Done by reflexivity.
  match goal with |- context [bind help _ ?w0] =>
    destruct (help_exits w0) as [w1 E] end.
  exists w1. now apply bind_Exit.
Qed.

Lemma built_set_args (f : flag.FlagSet Arguments) (l : list string) :
  built f -> built (flag.set_args f l).
Proof. intros [H1 H2]. split; assumption. Qed.

(** *** The flag parser on the flags of [BuildFlags] *)

Ltac flag_exit Hb :=
  right;
  match goal with
  | |- exists w', bind (flag.failf ?f ?msg) _ ?w = _ =>
      let w1 := fresh "w" in let E := fresh "E" in
      destruct (failf_exits f msg w Hb) as [w1 E];
      exists w1; apply bind_Exit; exact E
  | |- exists w', bind (flag.usage ?f) _ ?w = _ =>
      let w1 := fresh "w" in let E := fresh "E" in
      destruct (help_exits w) as [w1 E];
      exists w1; apply bind_Exit;
      unfold flag.usage; rewrite (proj1 Hb); exact E
  end.

Lemma parseOne_cases (f : flag.FlagSet Arguments) (m : Arguments) (w : World) :
  built f -> parseOne_outcome f w (flag.parseOne Quote f m w).
Proof.
  intros Hb. unfold flag.parseOne, parseOne_outcome.
  destruct (flag.args f) as [|s rest] eqn:Eargs.
  - left. exists f, m, false. rewrite Eargs.
    repeat split; try apply Hb; auto; discriminate.
  - assert (Hb' : built (flag.set_args f rest)) by now apply built_set_args.
    destruct ((String.length s <? 2)%nat || negb (flag.byte_is s 0 "-")).
    { left. exists f, m, false. rewrite Eargs.
      repeat split; try apply Hb; auto; discriminate. }
    destruct (flag.byte_is s 1 "-" && (String.length s =? 2)%nat).
    { left. exists (flag.set_args f rest), m, false.
      repeat split; simpl; auto; try apply Hb; discriminate. }
    match goal with |- context [if ?c then bind (flag.failf f _) _ else _] =>
      destruct c end.
    { flag_exit Hb. }
    destruct (flag.split_value _) as [[nm hasValue] value].
    destruct (flag.lookup nm (flag.formal (flag.set_args f rest))) as [fl|].
    2:{ destruct (String.eqb nm "help" || String.eqb nm "h");
        flag_exit Hb'. }
    destruct (flag.IsBoolFlag fl).
    + destruct hasValue.
      * destruct (flag.SetValue fl value m) as [m' [e|]].
        { flag_exit Hb'. }
        left. exists (flag.set_args f rest), m', true.
        repeat split; simpl; auto; apply Hb.
      * destruct (flag.SetValue fl "true" m) as [m' [e|]].
        { flag_exit Hb'. }
        left. exists (flag.set_args f rest), m', true.
        repeat split; simpl; auto; apply Hb.
    + destruct hasValue.
      * destruct (flag.SetValue fl value m) as [m' [e|]].
        { flag_exit Hb'. }
        left. exists (flag.set_args f rest), m', true.
        repeat split; simpl; auto; apply Hb.
      * simpl. destruct rest as [|v rest'].
        { flag_exit Hb'. }
        assert (Hb2 : built (flag.set_args (flag.set_args f (v :: rest')) rest'))
          by now apply built_set_args.
        destruct (flag.SetValue fl v m) as [m' [e|]].
        { flag_exit Hb2. }
        left. eexists _, m', true.
        repeat split; simpl; auto; apply Hb.
Qed.

(** The loop of [flag.Parse] ends within its bound: with more fuel than
    tokens it returns or exits, and never runs out. *)
Lemma parse_loop_cases (fuel : nat) :
  forall f m w,
    built f -> (List.length (flag.args f) < fuel)%nat ->
    parse_outcome f w (flag.parse_loop Quote fuel f m w).
Proof.
  induction fuel as [|fuel IH]; intros f m w Hb Hlen; [lia|].
  simpl.
  destruct (parseOne_cases f m w Hb)
    as [(f' & m' & seen & E & Hb' & Hf & Hle & Hlt) | (w' & E)].
  - erewrite bind_Done by exact E. cbv beta iota.
    destruct seen.
    + specialize (Hlt eq_refl).
      destruct (IH f' m' w Hb') as [(f2 & m2 & E2 & Hb2 & Hf2 & Hle2) | (w2 & E2)];
        [lia | |].
      * left. exists f2, m2. rewrite E2.
        repeat split; try apply Hb2; try congruence; lia.
      * right. exists w2. exact E2.
    + left. exists f', m'. repeat split; try apply Hb'; auto.
  - right. exists w'. now apply bind_Exit.
Qed.

Lemma flag_Parse_fuel (f : flag.FlagSet Arguments) (m : Arguments)
    (arguments : list string) (w : World) :
  built f ->
  parse_outcome (flag.set_args f arguments) w
    (flag.Parse Quote f m arguments w).
Proof.
  intros Hb. unfold flag.Parse. apply parse_loop_cases.
  - now apply built_set_args.
  - simpl. lia.
Qed.

Lemma built_flags_with (name : string) (tokens : list string) :
  built (flags_with name tokens).
Proof. split; reflexivity. Qed.

(** *** [BuildFlags] and [Parse] *)

Lemma BuildFlags_spec (a : Arguments) (name : string) (more : list string)
    (w : World) :
  os_Args = name :: more ->
  BuildFlags a w = (Done (flags_with name [], declared a), w).
Proof. intros E. unfold BuildFlags. rewrite E. reflexivity. Qed.

Lemma BuildFlags_no_Args (a : Arguments) (w : World) :
  os_Args = [] -> BuildFlags a w = (Panic (IndexOutOfRange 0 0), w).
Proof. intros E. unfold BuildFlags. rewrite E. reflexivity. Qed.

Lemma slice_from_cons {A} (x : A) (l : list A) (w : World) :
  slice_from (x :: l) 1 w = (Done l, w).
Proof. reflexivity. Qed.

(** [Parse] on a non-empty vector, once the flag set is built: the program
    name is dropped and the flag parser runs on the other tokens. *)
Lemma parse_flags_spec (a : Arguments) (args : list string) (w : World)
    (name : string) (more : list string) :
  os_Args = name :: more ->
  parse_flags a args w
  = flag.Parse Quote (flags_with name []) (declared a) args w.
Proof.
  intros E. unfold parse_flags.
  erewrite bind_Done by (eapply BuildFlags_spec; exact E).
  reflexivity.
Qed.

Ltac enter_Parse E :=
  unfold Parse;
  erewrite bind_Done by (eapply BuildFlags_spec; exact E);
  cbv beta iota;
  erewrite bind_Done by apply slice_from_cons.

Lemma count_message_line (n : nat) :
  strings.Join
    ["require exactly 1 argument for the IDL parameter, got:";
     itoa (Z.of_nat n)] " " ++ nl
  = count_message n.
Proof.
  unfold count_message, itoa. rewrite Nat2Z.id. reflexivity.
Qed.

(** The count in the message reads back as the number it reports. *)
Lemma count_message_exact (n : nat) :
  exists digits,
    count_message n
    = "require exactly 1 argument for the IDL parameter, got: "
      ++ digits ++ nl
    /\ atoi digits = Some n.
Proof.
  exists (NilEmpty.string_of_uint (Nat.to_uint n)).
  split; [reflexivity | apply atoi_count].
Qed.

(** C1: when the flag parsing of the tokens after the program name
    succeeds and leaves the version flag unset, then with exactly one token
    remaining [Parse] returns with [IDL] set to that token, and with any
    other number of tokens remaining it writes the message that reports
    this number and exits with status 2. *)
Theorem Parse_positional_count (a : Arguments) (prog : string)
    (args : list string) (w w' : World)
    (f' : flag.FlagSet Arguments) (a' : Arguments) :
  os_Args <> [] ->
  parse_flags a args w = (Done (f', a', None), w') ->
  AskVersion a' = false ->
  (forall idl,
     flag.Args f' = [idl] ->
     Parse a (prog :: args) w = (Done (flag.store p_IDL idl a'), w')
     /\ IDL (flag.store p_IDL idl a') = idl) /\
  (List.length (flag.Args f') <> 1%nat ->
     Parse a (prog :: args) w
     = (Exit 2, wrote w' [count_message (List.length (flag.Args f'))])
     /\ exists digits,
          count_message (List.length (flag.Args f'))
          = "require exactly 1 argument for the IDL parameter, got: "
            ++ digits ++ nl
          /\ atoi digits = Some (List.length (flag.Args f'))).
Proof.
  intros Hargs Hparse Hver.
  destruct os_Args as [|name more] eqn:E; [congruence|].
  rewrite (parse_flags_spec a args w name more E) in Hparse.
  split.
  - intros idl Hrest. split; [|reflexivity].
    enter_Parse E.
    erewrite bind_Done by exact Hparse. cbv beta iota.
    rewrite Hver, Hrest. reflexivity.
  - intros Hn. split; [|apply count_message_exact].
    enter_Parse E.
    erewrite bind_Done by exact Hparse. cbv beta iota.
    rewrite Hver. unfold len_slice.
    destruct (Z.eqb_spec (Z.of_nat (List.length (flag.Args f'))) 1) as [H1|H1];
      [lia|].
    cbv beta iota. unfold negb.
    erewrite bind_Done by apply println_Done.
    rewrite count_message_line. reflexivity.
Qed.

Lemma parse_version_flag (a : Arguments) (name : string) (w : World) :
  flag.Parse Quote (flags_with name []) (declared a) ["--version"] w
  = (Done (flags_with name [], flag.store p_AskVersion true (declared a), None),
     w).
Proof. reflexivity. Qed.

(** C5: when the flag parsing succeeds and has set the version flag,
    [Parse] writes ["thriftgo"] and the version and exits with status 0,
    whatever number of tokens remains; so [--version] alone, with no
    positional argument, exits with status 0. *)
Theorem Parse_version_first :
  os_Args <> [] ->
  (forall a prog args w w' f' a',
     parse_flags a args w = (Done (f', a', None), w') ->
     AskVersion a' = true ->
     Parse a (prog :: args) w
     = (Exit 0, wrote w' ["thriftgo " ++ Version ++ nl])) /\
  (forall a prog w,
     Parse a [prog; "--version"] w
     = (Exit 0, wrote w ["thriftgo " ++ Version ++ nl])).
Proof.
  intros Hargs.
  destruct os_Args as [|name more] eqn:E; [congruence|].
  assert (H : forall a prog args w w' f' a',
     parse_flags a args w = (Done (f', a', None), w') ->
     AskVersion a' = true ->
     Parse a (prog :: args) w
     = (Exit 0, wrote w' ["thriftgo " ++ Version ++ nl])).
  { intros a prog args w w' f' a' Hparse Hver.
    rewrite (parse_flags_spec a args w name more E) in Hparse.
    enter_Parse E.
    erewrite bind_Done by exact Hparse. cbv beta iota.
    rewrite Hver.
    erewrite bind_Done by apply println_Done.
    reflexivity. }
  split; [exact H|].
  intros a prog w.
  eapply H.
  - rewrite (parse_flags_spec a _ w name more E). apply parse_version_flag.
  - reflexivity.
Qed.

Lemma Parse_returns_or_exits (a : Arguments) (prog : string)
    (args : list string) (w : World) :
  os_Args <> [] -> returns_or_exits (Parse a (prog :: args) w).
Proof.
  intros Hargs. unfold returns_or_exits.
  destruct os_Args as [|name more] eqn:E; [congruence|].
  enter_Parse E.
  destruct (flag_Parse_fuel (flags_with name []) (declared a) args w
              (built_flags_with name []))
    as [(f' & m' & E' & _) | (w' & E')].
  - erewrite bind_Done by exact E'. cbv beta iota.
    destruct (AskVersion m').
    + right; left. erewrite bind_Done by apply println_Done.
      eexists. reflexivity.
    + destruct (flag.Args f') as [|x [|y rest]].
      * right; right. eexists. reflexivity.
      * left. eexists _, _. reflexivity.
      * right; right.
        assert (Hn : negb (len_slice (x :: y :: rest) =? 1)%Z = true).
        { unfold len_slice. simpl List.length.
          destruct (Z.eqb_spec (Z.of_nat (S (S (List.length rest)))) 1);
            [lia | reflexivity]. }
        rewrite Hn.
        erewrite bind_Done by apply println_Done.
        eexists. reflexivity.
  - right; right. exists w'. now apply bind_Exit.
Qed.

(** C10: [Parse] needs a non-empty argument vector.  On the empty vector
    the slice [argv[1:]] is out of range and [Parse] panics.  On a vector
    [prog :: args] the slice is [args], the outcome is the same whatever
    the first element is, and [Parse] does not panic: it returns or exits
    with status 0 or 2. *)
Theorem Parse_needs_program_name (a : Arguments) (w : World) :
  os_Args <> [] ->
  Parse a [] w = (Panic (SliceBoundsOutOfRange 1 0), w) /\
  (forall prog args,
     slice_from (prog :: args) 1 w = (Done args, w) /\
     (forall prog', Parse a (prog' :: args) w = Parse a (prog :: args) w) /\
     returns_or_exits (Parse a (prog :: args) w) /\
     (forall e w', Parse a (prog :: args) w <> (Panic e, w'))).
Proof.
  intros Hargs. split.
  - destruct os_Args as [|name more] eqn:E; [congruence|].
    unfold Parse.
    erewrite bind_Done by (eapply BuildFlags_spec; exact E).
    reflexivity.
  - intros prog args.
    split; [reflexivity|].
    split; [reflexivity|].
    pose proof (Parse_returns_or_exits a prog args w Hargs) as H.
    split; [exact H|].
    intros e w' Hp. rewrite Hp in H.
    destruct H as [(a1 & w1 & H) | [(w1 & H) | (w1 & H)]]; discriminate.
Qed.

(** *** Repeated flags *)

Lemma parseOne_include (name v : string) (rest : list string)
    (a : Arguments) (w : World) :
  flag.parseOne Quote (flags_with name ("-i" :: v :: rest)) a w
  = (Done (flags_with name rest,
           flag.store p_Includes (Includes a ++ [v])%list a, true, None), w).
Proof. reflexivity. Qed.

Lemma parseOne_positional (name idl : string) (rest : list string)
    (a : Arguments) (w : World) :
  is_positional idl = true ->
  flag.parseOne Quote (flags_with name (idl :: rest)) a w
  = (Done (flags_with name (idl :: rest), a, false, None), w).
Proof.
  intros H. unfold flag.parseOne.
  change (flag.args (flags_with name (idl :: rest))) with (idl :: rest).
  cbv iota. unfold is_positional in H. rewrite H. reflexivity.
Qed.

Lemma parse_loop_repeated (name idl : string) (w : World) :
  is_positional idl = true ->
  forall values a fuel,
    (List.length values < fuel)%nat ->
    flag.parse_loop Quote fuel
      (flags_with name (repeated "-i" values ++ [idl])%list) a w
    = (Done (flags_with name [idl],
             flag.store p_Includes (Includes a ++ values)%list a, None), w).
Proof.
  intros Hidl. induction values as [|v vs IH]; intros a fuel Hfuel;
    (destruct fuel as [|fuel]; [simpl in Hfuel; lia|]).
  - simpl.
    erewrite bind_Done by (apply parseOne_positional; exact Hidl).
    cbv beta iota. destruct a. simpl. rewrite app_nil_r. reflexivity.
  - simpl in Hfuel.
    change (repeated "-i" (v :: vs) ++ [idl])%list
      with ("-i" :: v :: (repeated "-i" vs ++ [idl]))%list.
    cbn [flag.parse_loop].
    erewrite bind_Done by apply parseOne_include.
    cbv beta iota.
    rewrite IH by lia. simpl. rewrite <- app_assoc. reflexivity.
Qed.

Lemma length_repeated (t : string) (values : list string) :
  List.length (repeated t values) = (2 * List.length values)%nat.
Proof. induction values as [|v vs IH]; simpl; [reflexivity | rewrite IH; lia]. Qed.

(** C6: [Set] appends the value at the end of the slice and returns no
    error; a sequence of calls appends the whole sequence, in order and
    with its duplicates.  So [Parse] on [-i v1 -i v2 ...] followed by the
    IDL file leaves in [Includes] what it held followed by [v1; v2; ...],
    and starting from the zero [Arguments] exactly [v1; v2; ...]. *)
Theorem repeated_flag_accumulates :
  (forall ss value, StringSlice_Set ss value = ((ss ++ [value])%list, None)) /\
  (forall values ss,
     fold_left (fun ss v => fst (StringSlice_Set ss v)) values ss
     = (ss ++ values)%list) /\
  (forall values prog idl a w,
     os_Args <> [] ->
     is_positional idl = true ->
     Parse a (prog :: repeated "-i" values ++ [idl])%list w
     = (Done (mkArguments false false false false ""
                (Includes a ++ values)%list (Plugins a) (Langs a) idl), w)) /\
  (forall values prog idl w,
     os_Args <> [] ->
     is_positional idl = true ->
     Parse zero_Arguments (prog :: repeated "-i" values ++ [idl])%list w
     = (Done (mkArguments false false false false "" values [] [] idl), w)).
Proof.
  assert (H : forall values prog idl a w,
     os_Args <> [] ->
     is_positional idl = true ->
     Parse a (prog :: repeated "-i" values ++ [idl])%list w
     = (Done (mkArguments false false false false ""
                (Includes a ++ values)%list (Plugins a) (Langs a) idl), w)).
  { intros values prog idl a w Hargs Hidl.
    destruct os_Args as [|name more] eqn:E; [congruence|].
    enter_Parse E.
    unfold flag.Parse. change (flag.set_args (flags_with name []) ?l)
      with (flags_with name l).
    erewrite bind_Done
      by (apply parse_loop_repeated;
          [exact Hidl | rewrite length_app, length_repeated; simpl; lia]).
    reflexivity. }
  split; [reflexivity|].
  split; [intros; apply fold_Set|].
  split; [exact H|].
  intros values prog idl w Hargs Hidl.
  now rewrite H.
Qed.

(** ** Further properties *)

(** *** [help] *)

Lemma wrote_app (w : World) (l1 l2 : list string) :
  wrote (wrote w l1) l2 = wrote w (l1 ++ l2).
Proof. unfold wrote; simpl. now rewrite app_assoc. Qed.

Lemma wrote_nil (w : World) : wrote w [] = w.
Proof. unfold wrote. rewrite app_nil_r. now destruct w. Qed.

Lemma help_range_writes (bs : list backend.Backend) :
  forall w, help_range bs w = (Done tt, wrote w (flat_map backend_lines bs)).
Proof.
  induction bs as [|b bs IH]; intros w; simpl.
  - unfold ret. now rewrite wrote_nil.
  - erewrite bind_Done by apply println_Done.
    erewrite bind_Done by apply align_total.
    erewrite bind_Done by apply println_Done.
    rewrite IH, !wrote_app. reflexivity.
Qed.

Lemma help_writes (w : World) : help w = (Exit 2, wrote w help_output).
Proof.
  unfold help.
  erewrite bind_Done by apply println_Done.
  erewrite bind_Done by apply println_Done.
  erewrite bind_Done by apply help_range_writes.
  erewrite bind_Done by apply println_Done.
  unfold os.Exit. rewrite !wrote_app. reflexivity.
Qed.

Lemma failf_writes (f : flag.FlagSet Arguments) (msg : string) (w : World) :
  built f ->
  flag.failf f msg w = (Exit 2, wrote w ((msg ++ nl) :: help_output)).
Proof.
  intros [Hu _]. unfold flag.failf, flag.usage. rewrite Hu.
  erewrite bind_Done
    by exact (eq_refl : fmt.Fprintln_stderr [msg] w
                        = (Done tt, wrote w [msg ++ nl])).
  erewrite bind_Exit by apply help_writes.
  now rewrite wrote_app.
Qed.

(** *** The flag parser only appends to the repeatable fields *)

Lemma extends_refl (a : Arguments) : extends a a.
Proof. exists [], [], []. now rewrite !app_nil_r. Qed.

Lemma extends_same (a b : Arguments) :
  Includes b = Includes a -> Plugins b = Plugins a -> Langs b = Langs a ->
  extends a b.
Proof.
  intros Hi Hp Hg. exists [], [], []. now rewrite !app_nil_r.
Qed.

Lemma extends_trans (a b c : Arguments) :
  extends a b -> extends b c -> extends a c.
Proof.
  intros (i1 & p1 & g1 & Hi1 & Hp1 & Hg1) (i2 & p2 & g2 & Hi2 & Hp2 & Hg2).
  exists (i1 ++ i2)%list, (p1 ++ p2)%list, (g1 ++ g2)%list.
  rewrite Hi2, Hp2, Hg2, Hi1, Hp1, Hg1, !app_assoc. auto.
Qed.

Lemma flag_table_appending (nm : string) (v : flag.Value Arguments) :
  flag.lookup nm flag_table = Some v -> appending v.
Proof.
  unfold flag_table. simpl.
  repeat match goal with
  | |- (if ?c then _ else _) = _ -> _ => destruct c
  end;
  intros H; try discriminate; injection H as <-; intros s a;
    try (unfold flag.boolValue; simpl; destruct (strconv.ParseBool s));
    simpl; try apply extends_refl.
  all: unfold extends; simpl.
  all: first [ now (exists [], [], []; rewrite ?app_nil_r)
             | now (exists [s], [], []; rewrite ?app_nil_r)
             | now (exists [], [s], []; rewrite ?app_nil_r)
             | now (exists [], [], [s]; rewrite ?app_nil_r) ].
Qed.

Ltac flag_exit_writes Hb :=
  right;
  match goal with
  | |- exists pre, bind (flag.failf ?f ?msg) _ ?w = _ =>
      exists [(msg ++ nl)%string]; apply bind_Exit;
      apply (failf_writes f msg w Hb)
  | |- exists pre, bind (flag.usage ?f) _ ?w = _ =>
      exists []; apply bind_Exit;
      unfold flag.usage; rewrite (proj1 Hb); apply help_writes
  end.

Ltac flag_seen Hb Happ fl f' m' :=
  left; exists f', m', true;
  repeat split; simpl; auto; try apply Hb;
  match goal with
  | E : flag.SetValue fl ?s ?m = (m', _) |- extends ?m m' =>
      let H := fresh in
      pose proof (Happ s m) as H; rewrite E in H; exact H
  end.

(** One round of the flag parser on a flag set of [BuildFlags] whose values
    only append: it returns without an error, with nothing written and the
    repeatable fields extended, or it exits with status 2 after writing at
    most an error line and then the help. *)
Lemma parseOne_appends (f : flag.FlagSet Arguments) (m : Arguments) (w : World) :
  built f ->
  (forall nm v, flag.lookup nm (flag.formal f) = Some v -> appending v) ->
  (exists f' m' seen,
      flag.parseOne Quote f m w = (Done (f', m', seen, None), w) /\ built f' /\
      flag.formal f' = flag.formal f /\
      (List.length (flag.args f') <= List.length (flag.args f))%nat /\
      (seen = true ->
       (List.length (flag.args f') < List.length (flag.args f))%nat) /\
      extends m m')
  \/ (exists pre,
        flag.parseOne Quote f m w = (Exit 2, wrote w (pre ++ help_output))).
Proof.
  intros Hb Hall. unfold flag.parseOne.
  destruct (flag.args f) as [|s rest] eqn:Eargs.
  - left. exists f, m, false. rewrite Eargs.
    repeat split; try apply Hb; auto using extends_refl; discriminate.
  - assert (Hb' : built (flag.set_args f rest)) by now apply built_set_args.
    destruct ((String.length s <? 2)%nat || negb (flag.byte_is s 0 "-")).
    { left. exists f, m, false. rewrite Eargs.
      repeat split; try apply Hb; auto using extends_refl; discriminate. }
    destruct (flag.byte_is s 1 "-" && (String.length s =? 2)%nat).
    { left. exists (flag.set_args f rest), m, false.
      repeat split; simpl; auto using extends_refl; try apply Hb;
        discriminate. }
    match goal with |- context [if ?c then bind (flag.failf f _) _ else _] =>
      destruct c end.
    { flag_exit_writes Hb. }
    destruct (flag.split_value _) as [[nm hasValue] value].
    destruct (flag.lookup nm (flag.formal (flag.set_args f rest)))
      as [fl|] eqn:El.
    2:{ destruct (String.eqb nm "help" || String.eqb nm "h");
        flag_exit_writes Hb'. }
    assert (Happ : appending fl) by (apply (Hall nm); exact El).
    destruct (flag.IsBoolFlag fl).
    + destruct hasValue.
      * destruct (flag.SetValue fl value m) as [m' [e|]] eqn:ES.
        { flag_exit_writes Hb'. }
        flag_seen Hb Happ fl (flag.set_args f rest) m'.
      * destruct (flag.SetValue fl "true" m) as [m' [e|]] eqn:ES.
        { flag_exit_writes Hb'. }
        flag_seen Hb Happ fl (flag.set_args f rest) m'.
    + destruct hasValue.
      * destruct (flag.SetValue fl value m) as [m' [e|]] eqn:ES.
        { flag_exit_writes Hb'. }
        flag_seen Hb Happ fl (flag.set_args f rest) m'.
      * simpl. destruct rest as [|v rest'].
        { flag_exit_writes Hb'. }
        assert (Hb2 : built (flag.set_args (flag.set_args f (v :: rest')) rest'))
          by now apply built_set_args.
        destruct (flag.SetValue fl v m) as [m' [e|]] eqn:ES.
        { flag_exit_writes Hb2. }
        flag_seen Hb Happ fl
          (flag.set_args (flag.set_args f (v :: rest')) rest') m'.
Qed.

Lemma parse_loop_appends (fuel : nat) :
  forall f m w,
    built f ->
    (forall nm v, flag.lookup nm (flag.formal f) = Some v -> appending v) ->
    (List.length (flag.args f) < fuel)%nat ->
    (exists f' m',
        flag.parse_loop Quote fuel f m w = (Done (f', m', None), w) /\
        extends m m')
    \/ (exists pre,
          flag.parse_loop Quote fuel f m w
          = (Exit 2, wrote w (pre ++ help_output))).
Proof.
  induction fuel as [|fuel IH]; intros f m w Hb Hall Hlen; [lia|].
  simpl.
  destruct (parseOne_appends f m w Hb Hall)
    as [(f' & m' & seen & E & Hb' & Hf & Hle & Hlt & Hext) | (pre & E)].
  - erewrite bind_Done by exact E. cbv beta iota.
    destruct seen.
    + specialize (Hlt eq_refl).
      destruct (IH f' m' w Hb') as [(f2 & m2 & E2 & Hext2) | (pre & E2)].
      * intros nm v. rewrite Hf. apply Hall.
      * lia.
      * left. exists f2, m2. split; [exact E2|].
        eapply extends_trans; eassumption.
      * right. exists pre. exact E2.
    + left. exists f', m'. split; [reflexivity | exact Hext].
  - right. exists pre. now apply bind_Exit.
Qed.

(** How [Parse] ends on a non-empty vector: it returns, with nothing
    written, the version flag unset, [IDL] the one token that remained and
    the repeatable fields extended; or it writes the version line and exits
    with status 0; or it writes something and exits with status 2. *)
Lemma Parse_cases (a : Arguments) (prog : string) (args : list string)
    (w : World) :
  os_Args <> [] ->
  (exists a',
      Parse a (prog :: args) w = (Done a', w) /\
      AskVersion a' = false /\ extends a a')
  \/ Parse a (prog :: args) w
     = (Exit 0, wrote w ["thriftgo " ++ Version ++ nl])
  \/ (exists chunk chunks,
        Parse a (prog :: args) w = (Exit 2, wrote w (chunk :: chunks))).
Proof.
  intros Hargs.
  destruct os_Args as [|name more] eqn:E; [congruence|].
  enter_Parse E. unfold flag.Parse.
  destruct (parse_loop_appends (S (List.length args))
              (flag.set_args (flags_with name []) args) (declared a) w)
    as [(f' & m' & E' & Hext) | (pre & E')].
  - apply built_flags_with.
  - intros nm v. apply flag_table_appending.
  - simpl. lia.
  - erewrite bind_Done by exact E'. cbv beta iota.
    destruct (AskVersion m') eqn:Hver.
    + right; left. erewrite bind_Done by apply println_Done. reflexivity.
    + destruct (flag.Args f') as [|x [|y rest]].
      * right; right. eexists _, _. reflexivity.
      * left. eexists. split; [reflexivity|]. split; [exact Hver|].
        apply (extends_trans a (declared a));
          [now apply extends_same|].
        apply (extends_trans _ m'); [exact Hext | now apply extends_same].
      * right; right.
        assert (Hn : negb (len_slice (x :: y :: rest) =? 1)%Z = true).
        { unfold len_slice. simpl List.length.
          destruct (Z.eqb_spec (Z.of_nat (S (S (List.length rest)))) 1);
            [lia | reflexivity]. }
        rewrite Hn.
        erewrite bind_Done by apply println_Done.
        eexists _, _. reflexivity.
  - right; right.
    erewrite bind_Exit by exact E'.
    destruct pre as [|c pre]; simpl; eexists _, _; reflexivity.
Qed.

(** *** Pairs of a repeatable option and its value *)

Lemma parseOne_pair (name t v : string) (rest : list string)
    (k : repeatable) (a : Arguments) (w : World) :
  repeatable_of t = Some k ->
  flag.parseOne Quote (flags_with name (t :: v :: rest)) a w
  = (Done (flags_with name rest, push k v a, true, None), w).
Proof.
  unfold repeatable_of, strconv.mem_string, existsb. intros H.
  repeat match type of H with
  | context [String.eqb t ?s] =>
      destruct (String.eqb_spec t s) as [->|_];
        [simpl in H; injection H as <-; reflexivity|]
  end.
  discriminate.
Qed.

Lemma parse_loop_pairs (name : string) (tail : list string) (w : World) :
  forall entries a fuel,
    all_repeatable entries = true ->
    flag.parse_loop Quote (List.length entries + fuel)
      (flags_with name (pair_tokens entries ++ tail)%list) a w
    = flag.parse_loop Quote fuel (flags_with name tail) (push_all entries a) w.
Proof.
  induction entries as [|[t v] entries IH]; intros a fuel Hall;
    [reflexivity|].
  simpl in Hall. apply andb_true_iff in Hall as [Ht Hall].
  destruct (repeatable_of t) as [k|] eqn:Ek; [|discriminate].
  change (pair_tokens ((t, v) :: entries) ++ tail)%list
    with (t :: v :: (pair_tokens entries ++ tail))%list.
  change (List.length ((t, v) :: entries) + fuel)%nat
    with (S (List.length entries + fuel)).
  cbn [flag.parse_loop].
  erewrite bind_Done by (apply parseOne_pair; exact Ek).
  cbv beta iota. rewrite IH by exact Hall.
  simpl. rewrite Ek. reflexivity.
Qed.

Lemma push_all_fields (entries : list (string * string)) :
  forall a,
    push_all entries a
    = mkArguments (AskVersion a) (Recursive a) (Verbose a) (Quiet a)
        (OutputPath a)
        (Includes a ++ values_of r_include entries)%list
        (Plugins a ++ values_of r_plugin entries)%list
        (Langs a ++ values_of r_gen entries)%list
        (IDL a).
Proof.
  induction entries as [|[t v] entries IH]; intros a.
  - unfold values_of; simpl. rewrite !app_nil_r. now destruct a.
  - unfold push_all in *. simpl. rewrite IH. unfold values_of. simpl.
    destruct (repeatable_of t) as [[| |]|]; simpl;
      rewrite <- ?app_assoc; reflexivity.
Qed.

Lemma length_pair_tokens (entries : list (string * string)) :
  List.length (pair_tokens entries) = (2 * List.length entries)%nat.
Proof.
  induction entries as [|e entries IH]; simpl; [reflexivity | rewrite IH; lia].
Qed.

(** [Parse] after the flag set is built, on pairs followed by other
    tokens: the pairs are consumed and the loop goes on with the rest. *)
Lemma Parse_pairs_fuel (entries : list (string * string)) (tail : list string) :
  exists fuel,
    S (List.length (pair_tokens entries ++ tail))
    = (List.length entries + S fuel)%nat
    /\ (List.length tail <= fuel)%nat.
Proof.
  exists (List.length entries + List.length tail)%nat.
  rewrite length_app, length_pair_tokens. lia.
Qed.

(** *** Tokens that end the flag parsing *)

Lemma parse_loop_stop (name : string) (tokens : list string) (a : Arguments)
    (w : World) (fuel : nat) (f' : flag.FlagSet Arguments) :
  flag.parseOne Quote (flags_with name tokens) a w
  = (Done (f', a, false, None), w) ->
  flag.parse_loop Quote (S fuel) (flags_with name tokens) a w
  = (Done (f', a, None), w).
Proof.
  intros H. cbn [flag.parse_loop]. erewrite bind_Done by exact H. reflexivity.
Qed.

Lemma parse_loop_exit (name : string) (tokens : list string) (a : Arguments)
    (w w' : World) (fuel : nat) :
  flag.parseOne Quote (flags_with name tokens) a w = (Exit 2, w') ->
  flag.parse_loop Quote (S fuel) (flags_with name tokens) a w = (Exit 2, w').
Proof.
  intros H. cbn [flag.parse_loop]. now apply bind_Exit.
Qed.

Lemma parseOne_double_dash (name : string) (rest : list string)
    (a : Arguments) (w : World) :
  flag.parseOne Quote (flags_with name ("--" :: rest)) a w
  = (Done (flags_with name rest, a, false, None), w).
Proof. reflexivity. Qed.

Lemma parseOne_no_token (name : string) (a : Arguments) (w : World) :
  flag.parseOne Quote (flags_with name []) a w
  = (Done (flags_with name [], a, false, None), w).
Proof. reflexivity. Qed.

Lemma usage_writes (name : string) (tokens : list string)
    {A} (k : unit -> Proc A) (w : World) :
  bind (flag.usage (flags_with name tokens)) k w
  = (Exit 2, wrote w help_output).
Proof. apply bind_Exit. apply help_writes. Qed.

Lemma parseOne_help (name t : string) (rest : list string)
    (a : Arguments) (w : World) :
  In t ["-h"; "--h"; "-help"; "--help"] ->
  flag.parseOne Quote (flags_with name (t :: rest)) a w
  = (Exit 2, wrote w help_output).
Proof.
  intros [<- | [<- | [<- | [<- | []]]]];
    apply (usage_writes name rest
             (fun _ => ret (flags_with name rest, a, false,
                            Some flag.ErrHelp)) w).
Qed.

Lemma failf_bind_writes (f : flag.FlagSet Arguments) (msg : string)
    {A} (k : error -> Proc A) (w : World) :
  built f ->
  bind (flag.failf f msg) k w
  = (Exit 2, wrote w ((msg ++ nl) :: help_output)).
Proof. intros Hb. apply bind_Exit. now apply failf_writes. Qed.

Lemma parseOne_missing_value (name t nm : string) (a : Arguments) (w : World) :
  In nm value_flags ->
  t = "-" ++ nm \/ t = "--" ++ nm ->
  flag.parseOne Quote (flags_with name [t]) a w
  = (Exit 2,
     wrote w (("flag needs an argument: -" ++ nm ++ nl) :: help_output)).
Proof.
  intros Hnm Ht.
  assert (Hb : built (flags_with name [])) by apply built_flags_with.
  unfold value_flags in Hnm. simpl in Hnm.
  repeat (destruct Hnm as [<- | Hnm];
    [destruct Ht as [-> | ->];
     match goal with
     | |- _ = (_, wrote _ (("flag needs an argument: -" ++ ?n ++ nl) :: _)) =>
       exact (failf_bind_writes (flags_with name [])
                ("flag needs an argument: -" ++ n)
                (fun err => ret (flags_with name [], a, false, Some err))
                w Hb)
     end|]).
  destruct Hnm.
Qed.

Lemma substring_all (s : string) : String.substring 0 (String.length s) s = s.
Proof. induction s as [|c s IH]; simpl; [reflexivity | now rewrite IH]. Qed.

Lemma parseOne_undeclared (name t nm : string) (rest : list string)
    (a : Arguments) (w : World) :
  undeclared nm = true ->
  t = "-" ++ nm \/ t = "--" ++ nm ->
  flag.parseOne Quote (flags_with name (t :: rest)) a w
  = (Exit 2,
     wrote w (("flag provided but not defined: -" ++ nm ++ nl)
              :: help_output)).
Proof.
  unfold undeclared. intros H Ht.
  repeat (apply andb_true_iff in H as [H ?]).
  assert (Hb : built (flags_with name rest)) by apply built_flags_with.
  destruct nm as [|c nm']; [discriminate|].
  set (nm := String c nm') in *.
  assert (Hc1 : Ascii.eqb c "-" = false)
    by (match goal with H : negb (flag.byte_is nm 0 "-") = true |- _ =>
          apply negb_true_iff in H; exact H end).
  assert (Hnm : flag.str_from 0 nm = nm).
  { unfold flag.str_from. rewrite Nat.sub_0_r. apply substring_all. }
  unfold flag.parseOne.
  change (flag.args (flags_with name (t :: rest))) with (t :: rest).
  cbv iota.
  assert (Hsyntax : (String.length nm =? 0)%nat || flag.byte_is nm 0 "-"
                    || flag.byte_is nm 0 "=" = false).
  { repeat match goal with H : negb _ = true |- _ =>
      apply negb_true_iff in H end.
    repeat (apply orb_false_iff; split); assumption. }
  assert (Hsplit : flag.split_value nm = (nm, false, "")).
  { unfold flag.split_value.
    destruct (String.index 1 "=" nm); [discriminate | reflexivity]. }
  assert (Hlook : flag.lookup nm flag_table = None).
  { destruct (flag.lookup nm flag_table); [discriminate | reflexivity]. }
  assert (Hhelp : String.eqb nm "help" || String.eqb nm "h" = false).
  { match goal with H : negb (_ || _) = true |- _ =>
      apply negb_true_iff in H; exact H end. }
  destruct Ht as [-> | ->].
  - change (flag.byte_is ("-" ++ nm) 1 "-") with (Ascii.eqb c "-").
    rewrite Hc1.
    change ((String.length ("-" ++ nm) <? 2)%nat
            || negb (flag.byte_is ("-" ++ nm) 0 "-")) with false.
    cbv beta iota zeta. simpl andb. cbv iota.
    change (flag.str_from 1 ("-" ++ nm)) with (flag.str_from 0 nm).
    rewrite Hnm, Hsyntax, Hsplit.
    change (flag.formal (flag.set_args (flags_with name (("-" ++ nm) :: rest)) rest))
      with flag_table.
    rewrite Hlook, Hhelp.
    apply failf_bind_writes. apply built_flags_with.
  - change (flag.byte_is ("--" ++ nm) 1 "-") with true.
    change ((String.length ("--" ++ nm) <? 2)%nat
            || negb (flag.byte_is ("--" ++ nm) 0 "-")) with false.
    change (String.length ("--" ++ nm) =? 2)%nat with false.
    cbv beta iota zeta. simpl andb. cbv iota.
    change (flag.str_from 2 ("--" ++ nm)) with (flag.str_from 0 nm).
    rewrite Hnm, Hsyntax, Hsplit.
    change (flag.formal (flag.set_args (flags_with name (("--" ++ nm) :: rest)) rest))
      with flag_table.
    rewrite Hlook, Hhelp.
    apply failf_bind_writes. apply built_flags_with.
Qed.

(** *** [Parse] on whole command lines *)

Lemma bind_eq {A B} (m m' : Proc A) (k : A -> Proc B) (w : World) :
  m w = m' w -> bind m k w = bind m' k w.
Proof. intros H. unfold bind. now rewrite H. Qed.

Ltac enter_pairs E Hall entries tail :=
  enter_Parse E; unfold flag.Parse;
  change (flag.set_args (flags_with ?n []) ?l) with (flags_with n l);
  let fuel := fresh "fuel" in
  let Ef := fresh "Ef" in
  destruct (Parse_pairs_fuel entries tail) as (fuel & Ef & _);
  erewrite bind_eq by (rewrite Ef; apply parse_loop_pairs; exact Hall).


(** X2: any spelling of the help flag, after any number of repeatable
    options and whatever follows it, makes [Parse] write the help, with no
    error line before it, and exit with status 2 (not 0). *)
Theorem Parse_help_flag (a : Arguments) (prog t : string)
    (entries : list (string * string)) (rest : list string) (w : World) :
  os_Args <> [] ->
  all_repeatable entries = true ->
  In t ["-h"; "--h"; "-help"; "--help"] ->
  Parse a (prog :: pair_tokens entries ++ t :: rest)%list w
  = (Exit 2, wrote w help_output).
Proof.
  intros Hargs Hall Ht.
  destruct os_Args as [|name more] eqn:E; [congruence|].
  enter_pairs E Hall entries (t :: rest).
  apply bind_Exit. apply parse_loop_exit. now apply parseOne_help.
Qed.

(** X3: a flag that [BuildFlags] does not declare makes [Parse] write
    "flag provided but not defined" with the name, then the help, and exit
    with status 2, with one dash or two and whatever follows. *)
Theorem Parse_undeclared_flag (a : Arguments) (prog t nm : string)
    (entries : list (string * string)) (rest : list string) (w : World) :
  os_Args <> [] ->
  all_repeatable entries = true ->
  undeclared nm = true ->
  t = "-" ++ nm \/ t = "--" ++ nm ->
  Parse a (prog :: pair_tokens entries ++ t :: rest)%list w
  = (Exit 2,
     wrote w (("flag provided but not defined: -" ++ nm ++ nl)
              :: help_output)).
Proof.
  intros Hargs Hall Hnm Ht.
  destruct os_Args as [|name more] eqn:E; [congruence|].
  enter_pairs E Hall entries (t :: rest).
  apply bind_Exit. apply parse_loop_exit. now apply parseOne_undeclared.
Qed.

(** X4: a flag that takes a value ([-o], [-i], [-g], [-p] and their long
    names) as the last token, with no [=value], makes [Parse] write "flag
    needs an argument" with the name, then the help, and exit with
    status 2. *)
Theorem Parse_missing_value (a : Arguments) (prog t nm : string)
    (entries : list (string * string)) (w : World) :
  os_Args <> [] ->
  all_repeatable entries = true ->
  In nm value_flags ->
  t = "-" ++ nm \/ t = "--" ++ nm ->
  Parse a (prog :: pair_tokens entries ++ [t])%list w
  = (Exit 2,
     wrote w (("flag needs an argument: -" ++ nm ++ nl) :: help_output)).
Proof.
  intros Hargs Hall Hnm Ht.
  destruct os_Args as [|name more] eqn:E; [congruence|].
  enter_pairs E Hall entries [t].
  apply bind_Exit. apply parse_loop_exit.
  now apply (parseOne_missing_value name t nm).
Qed.

(** X5: the flag parsing stops at the first positional token, so anything
    after the IDL file, options included, counts as a positional argument:
    [Parse] reports the count and exits with status 2. *)
Theorem Parse_options_after_file (a : Arguments) (prog idl tok : string)
    (entries : list (string * string)) (more : list string) (w : World) :
  os_Args <> [] ->
  all_repeatable entries = true ->
  is_positional idl = true ->
  Parse a (prog :: pair_tokens entries ++ idl :: tok :: more)%list w
  = (Exit 2, wrote w [count_message (2 + List.length more)]).
Proof.
  intros Hargs Hall Hidl.
  destruct os_Args as [|name more'] eqn:E; [congruence|].
  enter_pairs E Hall entries (idl :: tok :: more).
  erewrite bind_Done
    by (apply parse_loop_stop, parseOne_positional; exact Hidl).
  cbv beta iota. rewrite push_all_fields.
  change (AskVersion (mkArguments (AskVersion (declared a)) _ _ _ _ _ _ _ _))
    with false. cbv iota.
  change (flag.Args (flags_with name (idl :: tok :: more)))
    with (idl :: tok :: more).
  assert (Hn : negb (len_slice (idl :: tok :: more) =? 1)%Z = true).
  { unfold len_slice. simpl List.length.
    destruct (Z.eqb_spec (Z.of_nat (S (S (List.length more)))) 1);
      [lia | reflexivity]. }
  rewrite Hn.
  erewrite bind_Done by apply println_Done.
  unfold len_slice. rewrite count_message_line. reflexivity.
Qed.

(** X6: after [--] the next token is the IDL file whatever it looks like,
    also when it starts with a dash; [--] itself is not counted, so [--]
    as the last token leaves no positional argument. *)
Theorem Parse_double_dash (a : Arguments) (prog : string)
    (entries : list (string * string)) (w : World) :
  os_Args <> [] ->
  all_repeatable entries = true ->
  (forall idl,
     Parse a (prog :: pair_tokens entries ++ ["--"; idl])%list w
     = (Done (mkArguments false false false false ""
                (Includes a ++ values_of r_include entries)%list
                (Plugins a ++ values_of r_plugin entries)%list
                (Langs a ++ values_of r_gen entries)%list
                idl), w)) /\
  Parse a (prog :: pair_tokens entries ++ ["--"])%list w
  = (Exit 2, wrote w [count_message 0]).
Proof.
  intros Hargs Hall.
  destruct os_Args as [|name more'] eqn:E; [congruence|].
  split.
  - intros idl.
    enter_pairs E Hall entries ["--"; idl].
    erewrite bind_Done by (apply parse_loop_stop, parseOne_double_dash).
    cbv beta iota. rewrite push_all_fields. reflexivity.
  - enter_pairs E Hall entries ["--"].
    erewrite bind_Done by (apply parse_loop_stop, parseOne_double_dash).
    cbv beta iota. rewrite push_all_fields. reflexivity.
Qed.

(** X7: every spelling of the three repeatable options ([-i], [--include],
    [-g], [--gen], [-p], [--plugin], with one dash or two) appends its
    value to its own field.  On any interleaving of such options followed
    by the IDL file, [Parse] returns with each field holding what it held
    and then the values given to that option, in command-line order; the
    boolean fields and [OutputPath] are back at their defaults. *)
Theorem Parse_repeatable_flags (a : Arguments) (prog idl : string)
    (entries : list (string * string)) (w : World) :
  os_Args <> [] ->
  all_repeatable entries = true ->
  is_positional idl = true ->
  Parse a (prog :: pair_tokens entries ++ [idl])%list w
  = (Done (mkArguments false false false false ""
             (Includes a ++ values_of r_include entries)%list
             (Plugins a ++ values_of r_plugin entries)%list
             (Langs a ++ values_of r_gen entries)%list
             idl), w).
Proof.
  intros Hargs Hall Hidl.
  destruct os_Args as [|name more'] eqn:E; [congruence|].
  enter_pairs E Hall entries [idl].
  erewrite bind_Done
    by (apply parse_loop_stop, parseOne_positional; exact Hidl).
  cbv beta iota. rewrite push_all_fields. reflexivity.
Qed.

(** X8: however [Parse] ends on a non-empty vector, it does not panic and
    it is never silent about a failure: when it returns it has written
    nothing and the version flag is unset; when it exits with status 0 it
    has written the version line and nothing else; every other end is an
    exit with status 2 after at least one write. *)
Theorem Parse_outcomes (a : Arguments) (prog : string) (args : list string)
    (w w' : World) (r : Result Arguments) :
  os_Args <> [] ->
  Parse a (prog :: args) w = (r, w') ->
  match r with
  | Done a' => w' = w /\ AskVersion a' = false
  | Exit status =>
      (status = 0%Z /\ w' = wrote w ["thriftgo " ++ Version ++ nl])
      \/ (status = 2%Z /\
          (List.length (stderr w) < List.length (stderr w'))%nat)
  | Panic _ => False
  | OutOfFuel => False
  end.
Proof.
  intros Hargs H.
  destruct (Parse_cases a prog args w Hargs)
    as [(a' & E & Hver & _) | [E | (c & cs & E)]];
    rewrite E in H; injection H as <- <-.
  - split; [reflexivity | exact Hver].
  - left. split; reflexivity.
  - right. split; [reflexivity|].
    simpl. rewrite length_app. simpl. lia.
Qed.

(** X9: [Parse] only ever appends to [Includes], [Plugins] and [Langs]:
    when it returns, each of these fields holds what the receiver held
    before, in the same order, followed by the new values. *)
Theorem Parse_appends_only (a a' : Arguments) (prog : string)
    (args : list string) (w w' : World) :
  os_Args <> [] ->
  Parse a (prog :: args) w = (Done a', w') ->
  extends a a'.
Proof.
  intros Hargs H.
  destruct (Parse_cases a prog args w Hargs)
    as [(a1 & E & _ & Hext) | [E | (c & cs & E)]];
    rewrite E in H; try discriminate.
  injection H as <- _. exact Hext.
Qed.

(** *** The whole success path of [Parse] *)

Lemma parseOne_switch (name t : string) (rest : list string)
    (a : Arguments) (w : World) :
  well_spelled (flag_on t) = true ->
  flag.parseOne Quote (flags_with name (t :: rest)) a w
  = (Done (flags_with name rest, apply_option a (flag_on t), true, None), w).
Proof.
  unfold well_spelled, apply_option, switch_of, strconv.mem_string, existsb.
  intros H.
  repeat match type of H with
  | context [String.eqb t ?s] =>
      destruct (String.eqb_spec t s) as [->|_]; [reflexivity|]
  end.
  discriminate.
Qed.

Lemma parseOne_valued (name t v : string) (rest : list string)
    (a : Arguments) (w : World) :
  well_spelled (flag_value t v) = true ->
  flag.parseOne Quote (flags_with name (t :: v :: rest)) a w
  = (Done (flags_with name rest, apply_option a (flag_value t v), true, None),
     w).
Proof.
  unfold well_spelled, apply_option, valued_of, repeatable_of,
    strconv.mem_string, existsb.
  intros H.
  repeat match type of H with
  | context [String.eqb t ?s] =>
      destruct (String.eqb_spec t s) as [->|_]; [reflexivity|]
  end.
  discriminate.
Qed.

Lemma parse_loop_options (name : string) (tail : list string) (w : World) :
  forall opts a fuel,
    forallb well_spelled opts = true ->
    flag.parse_loop Quote (List.length opts + fuel)
      (flags_with name (flat_map option_tokens opts ++ tail)%list) a w
    = flag.parse_loop Quote fuel (flags_with name tail)
        (fold_left apply_option opts a) w.
Proof.
  induction opts as [|o opts IH]; intros a fuel Hall; [reflexivity|].
  simpl in Hall. apply andb_true_iff in Hall as [Ho Hall].
  change (List.length (o :: opts) + fuel)%nat
    with (S (List.length opts + fuel)).
  cbn [flag.parse_loop flat_map fold_left].
  rewrite <- app_assoc.
  destruct o as [t | t v]; cbn [option_tokens app].
  - erewrite bind_Done by (apply parseOne_switch; exact Ho).
    cbv beta iota. now apply IH.
  - erewrite bind_Done by (apply parseOne_valued; exact Ho).
    cbv beta iota. now apply IH.
Qed.

Lemma options_fuel (opts : list cli_option) (tail : list string) :
  exists fuel,
    S (List.length (flat_map option_tokens opts ++ tail))
    = (List.length opts + S fuel)%nat.
Proof.
  assert (H : (List.length opts
               <= List.length (flat_map option_tokens opts))%nat).
  { induction opts as [|[t|t v] opts IH]; simpl; lia. }
  exists (List.length (flat_map option_tokens opts) - List.length opts
          + List.length tail)%nat.
  rewrite length_app. lia.
Qed.

(** [Parse] on options and the IDL file is the options applied in turn. *)
Lemma Parse_options_run (a : Arguments) (prog idl : string)
    (opts : list cli_option) (w : World) :
  os_Args <> [] ->
  forallb well_spelled opts = true ->
  is_positional idl = true ->
  Parse a (prog :: flat_map option_tokens opts ++ [idl])%list w
  = if AskVersion (fold_left apply_option opts (declared a))
    then (Exit 0, wrote w ["thriftgo " ++ Version ++ nl])
    else (Done (flag.store p_IDL idl
                  (fold_left apply_option opts (declared a))), w).
Proof.
  intros Hargs Hall Hidl.
  destruct os_Args as [|name more'] eqn:E; [congruence|].
  enter_Parse E. unfold flag.Parse.
  change (flag.set_args (flags_with ?n []) ?l) with (flags_with n l).
  destruct (options_fuel opts [idl]) as (fuel & Ef).
  erewrite bind_eq by (rewrite Ef; apply parse_loop_options; exact Hall).
  erewrite bind_Done
    by (apply parse_loop_stop, parseOne_positional; exact Hidl).
  cbv beta iota.
  destruct (AskVersion (fold_left apply_option opts (declared a))).
  - erewrite bind_Done by apply println_Done. reflexivity.
  - reflexivity.
Qed.

(** X10: on a command line of correctly spelled options (a boolean flag on
    its own, or [-o], [-i], [-g], [-p] followed by its value; short or long
    name, one dash or two) and then the IDL file, [Parse] does what applying
    the options one by one, from left to right, to the receiver with its
    boolean fields and [OutputPath] at their defaults does: if the version
    flag is among them it writes the version line and exits with status 0,
    and otherwise it returns that receiver with [IDL] set, having written
    nothing. *)
Theorem Parse_options (a : Arguments) (prog idl : string)
    (opts : list cli_option) (w : World) :
  os_Args <> [] ->
  forallb well_spelled opts = true ->
  is_positional idl = true ->
  Parse a (prog :: flat_map option_tokens opts ++ [idl])%list w
  = if AskVersion (fold_left apply_option opts (declared a))
    then (Exit 0, wrote w ["thriftgo " ++ Version ++ nl])
    else (Done (flag.store p_IDL idl
                  (fold_left apply_option opts (declared a))), w).
Proof. apply Parse_options_run. Qed.

(** *** [Targets] and [UsedPlugins] *)

Lemma Targets_range_as_targets (strs : list string) :
  forall acc w,
    Targets_range strs (map to_spec acc) w
    = as_targets (UsedPlugins_range strs acc w).
Proof.
  induction strs as [|s strs IH]; intros acc w; simpl; [reflexivity|].
  unfold bind, call_ParseCompactArguments.
  destruct (ParseCompactArguments s) as [desc | err]; [|reflexivity].
  rewrite <- IH, map_app. reflexivity.
Qed.

(** X11: [Targets] is [UsedPlugins] on the languages: on the same list of
    strings the two make the same calls of the parser and end the same
    way, the target descriptors being the plugin descriptors with [Name]
    as [Language] and the same [Options]. *)
Theorem Targets_as_UsedPlugins (strs : list string) (a b : Arguments)
    (w : World) :
  Targets (flag.store p_Langs strs a) w
  = as_targets (UsedPlugins (flag.store p_Plugins strs b) w).
Proof.
  unfold Targets, UsedPlugins. simpl.
  apply (Targets_range_as_targets strs [] w).
Qed.

Lemma UsedPlugins_range_shape (strs : list string) :
  forall acc w,
    exists descs err k,
      UsedPlugins_range strs acc w
      = (Done (descs, err), called w (firstn k strs)) /\
      (k <= List.length strs)%nat /\
      match err with
      | None =>
          k = List.length strs /\
          exists new, descs = (acc ++ new)%list /\ all_parse strs new
      | Some e =>
          descs = [] /\
          exists pre bad post parsed,
            strs = (pre ++ bad :: post)%list /\
            k = S (List.length pre) /\
            all_parse pre parsed /\
            ParseCompactArguments bad = inr e
      end.
Proof.
  induction strs as [|s strs IH]; intros acc w.
  - exists acc, None, 0%nat. simpl. rewrite called_nil.
    repeat split; auto. exists []. rewrite app_nil_r.
    split; [reflexivity | constructor].
  - simpl. unfold bind, call_ParseCompactArguments.
    destruct (ParseCompactArguments s) as [desc | e] eqn:Es.
    + destruct (IH (acc ++ [desc])%list (called w [s]))
        as (descs & err & k & E & Hk & Hshape).
      exists descs, err, (S k).
      change (mkWorld (stderr w) (compact_calls w ++ [s])%list)
        with (called w [s]).
      rewrite E, called_app. simpl.
      split; [reflexivity|]. split; [lia|].
      destruct err as [e|].
      * destruct Hshape as (Hd & pre & bad & post & parsed & -> & -> & Hp & Hb).
        split; [exact Hd|].
        exists (s :: pre), bad, post, (desc :: parsed).
        repeat split; auto. constructor; assumption.
      * destruct Hshape as (-> & new & -> & Hnew).
        split; [reflexivity|].
        exists (desc :: new). rewrite <- app_assoc.
        split; [reflexivity | constructor; assumption].
    + exists [], (Some e), 1%nat. simpl.
      split; [reflexivity|]. split; [lia|]. split; [reflexivity|].
      exists [], s, strs, []. repeat split; auto. constructor.
Qed.

(** X12: [UsedPlugins] always returns; it neither exits nor panics.  It
    writes nothing, and its calls of the parser are the first [k] entries
    of [Plugins], once each and in order.  With no error, [k] is the
    number of entries and there is one descriptor per entry; with an error,
    the list is nil, and the error is that of entry [k], the first one
    that fails. *)
Theorem UsedPlugins_shape (a : Arguments) (w : World) :
  exists descs err k,
    UsedPlugins a w = (Done (descs, err), called w (firstn k (Plugins a))) /\
    (k <= List.length (Plugins a))%nat /\
    match err with
    | None =>
        k = List.length (Plugins a) /\ all_parse (Plugins a) descs
    | Some e =>
        descs = [] /\
        exists pre bad post parsed,
          Plugins a = (pre ++ bad :: post)%list /\
          k = S (List.length pre) /\
          all_parse pre parsed /\
          ParseCompactArguments bad = inr e
    end.
Proof.
  unfold UsedPlugins.
  destruct (UsedPlugins_range_shape (Plugins a) [] w)
    as (descs & err & k & E & Hk & Hshape).
  exists descs, err, k. split; [exact E|]. split; [exact Hk|].
  destruct err as [e|]; [exact Hshape|].
  destruct Hshape as (Hk' & new & -> & Hnew). split; assumption.
Qed.

(** *** The emitters *)

Lemma each_Println (l : log.Logger) (ws : list string) (w : World) :
  each (fun v => log.Println l v) ws w = MultiWarn_range l ws w.
Proof.
  revert w. induction ws as [|m ws IH]; intros w; simpl; [reflexivity|].
  unfold bind. destruct (log.Println l [m] w) as [[[]| | |] w1]; auto.
Qed.

Lemma each_silent (ws : list string) (w : World) :
  each (fun _ => ret tt) ws w = (Done tt, w).
Proof. induction ws as [|m ws IH]; simpl; [reflexivity | exact IH]. Qed.

(** X13: the batched emitter is the plain Warn emitter called once per
    message: for every configuration, [MultiWarn] on a batch does what
    calling [Warn] on each message in turn does, and [MultiWarn] on two
    batches one after the other does what [MultiWarn] on their
    concatenation does. *)
Theorem MultiWarn_is_Warn_each (a : Arguments) (w : World) :
  (forall ws,
     backend.MultiWarn (MakeLogFunc a) ws w
     = each (backend.Warn (MakeLogFunc a)) ws w) /\
  (forall ws1 ws2,
     backend.MultiWarn (MakeLogFunc a) (ws1 ++ ws2)%list w
     = (backend.MultiWarn (MakeLogFunc a) ws1 ;;;
        backend.MultiWarn (MakeLogFunc a) ws2) w).
Proof.
  unfold MakeLogFunc.
  destruct (Quiet a); cbn [negb backend.MultiWarn backend.Warn]; split.
  - intros ws. now rewrite each_silent.
  - reflexivity.
  - intros ws. now rewrite each_Println.
  - intros ws1 ws2.
    erewrite bind_Done by apply MultiWarn_range_writes.
    rewrite !MultiWarn_range_writes, map_app, wrote_app. reflexivity.
Qed.

(** *** The padding of [align] *)

(** X14: [align] cannot panic, and a row is made of four spaces, the
    option's name, a colon, [k] spaces and the description, where [k] is at
    least two and makes up for what the name lacks to the longest name of
    the list: [k + len(name) = 2 + max].  So a longest name is followed by
    exactly two spaces. *)
Theorem align_padding (opts : list plugin.Option.t) (w : World) :
  exists ss,
    align_ss opts w = (Done ss, w) /\
    forall i opt,
      nth_error opts i = Some opt ->
      exists k,
        nth_error ss i
        = Some ("    " ++ plugin.Option.Name opt ++ ":"
                ++ strings.repeat_nat " " k ++ plugin.Option.Desc opt) /\
        (2 <= k)%nat /\
        (k + String.length (plugin.Option.Name opt)
         = 2 + max_name_length opts)%nat.
Proof.
  exists (map (row_of (max_name_length opts)) opts).
  split; [apply align_ss_rows|].
  intros i opt Hi.
  exists (2 + max_name_length opts
          - String.length (plugin.Option.Name opt))%nat.
  assert (Hle : (String.length (plugin.Option.Name opt)
                 <= max_name_length opts)%nat)
    by (apply max_name_length_ge; eapply nth_error_In; eassumption).
  rewrite nth_error_map, Hi. cbn [option_map].
  split; [reflexivity|]. lia.
Qed.

(** *** [Parse] and then [Output] or [MakeLogFunc] *)

Lemma fold_options_fields (opts : list cli_option) :
  forall a,
    AskVersion (fold_left apply_option opts a)
    = AskVersion a || switched is_version opts
    /\ Verbose (fold_left apply_option opts a)
       = Verbose a || switched is_verbose opts
    /\ Quiet (fold_left apply_option opts a)
       = Quiet a || switched is_quiet opts
    /\ OutputPath (fold_left apply_option opts a)
       = fold_left
           (fun acc o => match o with
                         | flag_value t v =>
                             match valued_of t with
                             | Some v_out => v
                             | _ => acc
                             end
                         | flag_on _ => acc
                         end) opts (OutputPath a).
Proof.
  induction opts as [|o opts IH]; intros a.
  - simpl. rewrite !orb_false_r. auto.
  - cbn [fold_left switched existsb].
    destruct (IH (apply_option a o)) as (Hv & Hb & Hq & Ho).
    rewrite Hv, Hb, Hq, Ho. clear.
    destruct o as [t | t v]; cbn [apply_option].
    + destruct (switch_of t) as [[| | |]|]; simpl;
        rewrite ?orb_false_r, ?orb_true_r; auto;
        repeat split; try reflexivity;
        destruct (AskVersion a), (Verbose a), (Quiet a); reflexivity.
    + destruct (valued_of t) as [[|[| |]]|]; simpl; auto.
Qed.

(** X15: after [Parse] has returned on a command line of correctly
    spelled options and the IDL file, [Output] gives the value of the last
    [-o] / [--out] for every language when that value is not empty, and
    ["./gen-"] followed by the language when there is no [-o] or the last
    one is empty; the [OutputPath] that the receiver held before [Parse] is
    never used. *)
Theorem Parse_then_Output (a a' : Arguments) (prog idl : string)
    (opts : list cli_option) (w w' : World) (lang : string) :
  os_Args <> [] ->
  forallb well_spelled opts = true ->
  is_positional idl = true ->
  Parse a (prog :: flat_map option_tokens opts ++ [idl])%list w
  = (Done a', w') ->
  Output a' lang
  = if String.eqb (last_out opts) "" then "./gen-" ++ lang else last_out opts.
Proof.
  intros Hargs Hall Hidl H.
  rewrite (Parse_options_run a prog idl opts w Hargs Hall Hidl) in H.
  destruct (fold_options_fields opts (declared a)) as (_ & _ & _ & Ho).
  destruct (AskVersion (fold_left apply_option opts (declared a))).
  - discriminate.
  - injection H as <- _.
    change (OutputPath (declared a)) with "" in Ho.
    fold (last_out opts) in Ho.
    unfold Output, len. cbn [flag.store p_IDL OutputPath].
    rewrite Ho. destruct (last_out opts); reflexivity.
Qed.

(** X16: after [Parse] has returned on a command line of correctly
    spelled options and the IDL file, the emitters of [MakeLogFunc] follow
    the flags given, wherever they stand and whatever the receiver held
    before: with a quiet flag all three are no-ops, also next to a verbose
    flag; without one, Warn and multi-Warn are active, and Info is active
    exactly when a verbose flag is given. *)
Theorem Parse_then_MakeLogFunc (a a' : Arguments) (prog idl : string)
    (opts : list cli_option) (w w' : World) :
  os_Args <> [] ->
  forallb well_spelled opts = true ->
  is_positional idl = true ->
  Parse a (prog :: flat_map option_tokens opts ++ [idl])%list w
  = (Done a', w') ->
  let logs := MakeLogFunc a' in
  if switched is_quiet opts
  then no_op (backend.Info logs) /\ no_op (backend.Warn logs)
       /\ no_op (backend.MultiWarn logs)
  else active "[WARN] " (backend.Warn logs)
       /\ active_batch "[WARN] " (backend.MultiWarn logs)
       /\ if switched is_verbose opts
          then active "[INFO] " (backend.Info logs)
          else no_op (backend.Info logs).
Proof.
  intros Hargs Hall Hidl H.
  rewrite (Parse_options_run a prog idl opts w Hargs Hall Hidl) in H.
  destruct (fold_options_fields opts (declared a)) as (_ & Hv & Hq & _).
  destruct (AskVersion (fold_left apply_option opts (declared a))).
  - discriminate.
  - injection H as Ha _. intros logs. subst logs.
    assert (Hq' : Quiet a' = switched is_quiet opts)
      by (rewrite <- Ha; exact Hq).
    assert (Hv' : Verbose a' = switched is_verbose opts)
      by (rewrite <- Ha; exact Hv).
    clear Ha Hq Hv.
    destruct (switched is_quiet opts).
    + split; [|split].
      * apply Info_no_op. rewrite Hq'. apply andb_false_r.
      * now apply Warn_no_op.
      * now apply MultiWarn_no_op.
    + split; [now apply Warn_active|].
      split; [now apply MultiWarn_active|].
      destruct (switched is_verbose opts).
      * now apply Info_active.
      * apply Info_no_op. now rewrite Hv'.
Qed.

End Args.

(** ** The properties on the sample environment *)

Abbreviation run_Parse :=
  (Parse Sample.Version Sample.AllBackend Sample.os_Args Sample.Quote
         Sample.println_error) (only parsing).
Abbreviation run_UsedPlugins :=
  (UsedPlugins Sample.ParseCompactArguments) (only parsing).
Abbreviation run_Targets :=
  (Targets Sample.ParseCompactArguments) (only parsing).
(** [-p p1 -p :bad -p p3:k=v -g go:x=1,y]: the second plugin has no name. *)
Abbreviation resolved :=
  (mkArguments false false false false ""
     [] ["p1"; ":bad"; "p3:k=v"] ["go:x=1,y"] "a.thrift") (only parsing).

Lemma sample_os_Args : Sample.os_Args <> [].
Proof. discriminate. Qed.

(** C1, on [thriftgo -i inc a.thrift] and on [thriftgo -i inc]. *)
Lemma Parse_positional_count_witness :
  run_Parse zero_Arguments ["thriftgo"; "-i"; "inc"; "a.thrift"] Sample.w0
  = (Done (mkArguments false false false false "" ["inc"] [] [] "a.thrift"),
     Sample.w0)
  /\ run_Parse zero_Arguments ["thriftgo"; "-i"; "inc"] Sample.w0
     = (Exit 2,
        mkWorld ["require exactly 1 argument for the IDL parameter, got: 0"
                 ++ nl] []).
Proof.
  split.
  - refine (proj1 (proj1 (Parse_positional_count
              Sample.Version Sample.AllBackend Sample.os_Args Sample.Quote
              Sample.println_error zero_Arguments "thriftgo"
              ["-i"; "inc"; "a.thrift"] Sample.w0 Sample.w0
              (flags_with Sample.Version Sample.AllBackend "thriftgo"
                 ["a.thrift"])
              (mkArguments false false false false "" ["inc"] [] [] "")
              sample_os_Args _ _) "a.thrift" _)); reflexivity.
  - refine (proj1 (proj2 (Parse_positional_count
              Sample.Version Sample.AllBackend Sample.os_Args Sample.Quote
              Sample.println_error zero_Arguments "thriftgo"
              ["-i"; "inc"] Sample.w0 Sample.w0
              (flags_with Sample.Version Sample.AllBackend "thriftgo" [])
              (mkArguments false false false false "" ["inc"] [] [] "")
              sample_os_Args _ _) _)); try reflexivity.
    simpl. discriminate.
Defined.

(** C2, on the plugins [p1], [:bad], [p3:k=v] and the language
    [go:x=1,y]. *)
Lemma resolve_all_or_first_failure_witness :
  run_UsedPlugins resolved Sample.w0
  = (Done ([], Some "ParseCompactArguments: empty name"),
     mkWorld [] ["p1"; ":bad"])
  /\ run_Targets resolved Sample.w0
     = (Done ([generator.mkLangSpec "go"
                 [plugin.Option.mk "x" "1"; plugin.Option.mk "y" ""]], None),
        mkWorld [] ["go:x=1,y"]).
Proof.
  pose proof (resolve_all_or_first_failure Sample.ParseCompactArguments
                resolved Sample.w0) as (_ & Hfail & Hok & _).
  split.
  - apply (Hfail ["p1"] ":bad" ["p3:k=v"] [plugin.mkDesc "p1" []]
             "ParseCompactArguments: empty name").
    + reflexivity.
    + repeat constructor.
    + reflexivity.
  - apply (Hok [plugin.mkDesc "go"
                  [plugin.Option.mk "x" "1"; plugin.Option.mk "y" ""]]).
    repeat constructor.
Defined.

(** C5, on [thriftgo --version]. *)
Lemma Parse_version_first_witness :
  run_Parse zero_Arguments ["thriftgo"; "--version"] Sample.w0
  = (Exit 0, mkWorld ["thriftgo 0.0.1" ++ nl] []).
Proof.
  apply (proj2 (Parse_version_first
                  Sample.Version Sample.AllBackend Sample.os_Args Sample.Quote
                  Sample.println_error sample_os_Args)).
Defined.

(** C6, on [thriftgo -i a -i b -i a x.thrift]. *)
Lemma repeated_flag_accumulates_witness :
  run_Parse zero_Arguments
    ["thriftgo"; "-i"; "a"; "-i"; "b"; "-i"; "a"; "x.thrift"] Sample.w0
  = (Done (mkArguments false false false false ""
             ["a"; "b"; "a"] [] [] "x.thrift"), Sample.w0).
Proof.
  apply (proj2 (proj2 (proj2 (repeated_flag_accumulates
                  Sample.Version Sample.AllBackend Sample.os_Args Sample.Quote
                  Sample.println_error)))
           ["a"; "b"; "a"] "thriftgo" "x.thrift" Sample.w0 sample_os_Args).
  reflexivity.
Defined.

(** C9, on the zero [Arguments]. *)
Lemma empty_resolves_to_nil_witness :
  run_UsedPlugins zero_Arguments Sample.w0 = (Done ([], None), Sample.w0)
  /\ run_Targets zero_Arguments Sample.w0 = (Done ([], None), Sample.w0).
Proof.
  pose proof (empty_resolves_to_nil Sample.ParseCompactArguments
                zero_Arguments Sample.w0) as [H1 H2].
  split; [apply H1 | apply H2]; reflexivity.
Defined.

(** C10, on the empty vector and on [thriftgo a.thrift]. *)
Lemma Parse_needs_program_name_witness :
  run_Parse zero_Arguments [] Sample.w0
  = (Panic (SliceBoundsOutOfRange 1 0), Sample.w0)
  /\ returns_or_exits (run_Parse zero_Arguments ["thriftgo"; "a.thrift"]
                         Sample.w0).
Proof.
  pose proof (Parse_needs_program_name
                Sample.Version Sample.AllBackend Sample.os_Args Sample.Quote
                Sample.println_error zero_Arguments Sample.w0 sample_os_Args)
    as [H1 H2].
  split; [exact H1|].
  exact (proj1 (proj2 (proj2 (H2 "thriftgo" ["a.thrift"])))).
Defined.

(** C7, as the specification states it, fails: for the options [a] and
    [bb] the rows are ["    a:   x"] and ["    bb:  y"], whose descriptions
    begin at offset 9, so they are not aligned at [4 + 2 + 2 = 8]. *)
Lemma align_offset_counterexample :
  align_ss [Sample.opt_a; Sample.opt_bb] Sample.w0
  = (Done ["    a:   x"; "    bb:  y"], Sample.w0)
  /\ max_name_length [Sample.opt_a; Sample.opt_bb] = 2%nat
  /\ ~ rows_aligned (fun opts => (4 + max_name_length opts + 2)%nat)
         [Sample.opt_a; Sample.opt_bb].
Proof.
  split; [reflexivity|]. split; [reflexivity|].
  intros H. destruct (H Sample.w0) as (ss & E & _ & _ & Hrow).
  injection E as <-.
  destruct (Hrow 0%nat Sample.opt_a "    a:   x" eq_refl eq_refl)
    as (pre & Heq & Hlen).
  apply (f_equal String.length) in Heq.
  rewrite length_append in Heq. simpl in Heq, Hlen. lia.
Qed.

(** *** The further properties on the sample environment *)

Abbreviation sample_help :=
  (help_output Sample.Version Sample.AllBackend) (only parsing).

(** X2, on [thriftgo -i inc --help a.thrift]. *)
Lemma Parse_help_flag_witness :
  run_Parse zero_Arguments ["thriftgo"; "-i"; "inc"; "--help"; "a.thrift"]
    Sample.w0
  = (Exit 2, wrote Sample.w0 sample_help).
Proof.
  apply (Parse_help_flag Sample.Version Sample.AllBackend Sample.os_Args
           Sample.Quote Sample.println_error zero_Arguments "thriftgo"
           "--help" [("-i", "inc")] ["a.thrift"] Sample.w0 sample_os_Args).
  - reflexivity.
  - simpl. tauto.
Defined.

(** X3, on [thriftgo --java a.thrift]. *)
Lemma Parse_undeclared_flag_witness :
  run_Parse zero_Arguments ["thriftgo"; "--java"; "a.thrift"] Sample.w0
  = (Exit 2,
     wrote Sample.w0
       (("flag provided but not defined: -java" ++ nl) :: sample_help)).
Proof.
  apply (Parse_undeclared_flag Sample.Version Sample.AllBackend Sample.os_Args
           Sample.Quote Sample.println_error zero_Arguments "thriftgo"
           "--java" "java" [] ["a.thrift"] Sample.w0 sample_os_Args).
  - reflexivity.
  - reflexivity.
  - right. reflexivity.
Defined.

(** X4, on [thriftgo -g go -o]. *)
Lemma Parse_missing_value_witness :
  run_Parse zero_Arguments ["thriftgo"; "-g"; "go"; "-o"] Sample.w0
  = (Exit 2,
     wrote Sample.w0 (("flag needs an argument: -o" ++ nl) :: sample_help)).
Proof.
  apply (Parse_missing_value Sample.Version Sample.AllBackend Sample.os_Args
           Sample.Quote Sample.println_error zero_Arguments "thriftgo"
           "-o" "o" [("-g", "go")] Sample.w0 sample_os_Args).
  - reflexivity.
  - simpl. tauto.
  - left. reflexivity.
Defined.

(** X5, on [thriftgo a.thrift -v]. *)
Lemma Parse_options_after_file_witness :
  run_Parse zero_Arguments ["thriftgo"; "a.thrift"; "-v"] Sample.w0
  = (Exit 2,
     mkWorld ["require exactly 1 argument for the IDL parameter, got: 2"
              ++ nl] []).
Proof.
  apply (Parse_options_after_file Sample.Version Sample.AllBackend
           Sample.os_Args Sample.Quote Sample.println_error zero_Arguments
           "thriftgo" "a.thrift" "-v" [] [] Sample.w0 sample_os_Args);
    reflexivity.
Defined.

(** X6, on [thriftgo -i inc -- -odd.thrift]. *)
Lemma Parse_double_dash_witness :
  run_Parse zero_Arguments ["thriftgo"; "-i"; "inc"; "--"; "-odd.thrift"]
    Sample.w0
  = (Done (mkArguments false false false false "" ["inc"] [] []
             "-odd.thrift"), Sample.w0).
Proof.
  apply (proj1 (Parse_double_dash Sample.Version Sample.AllBackend
                  Sample.os_Args Sample.Quote Sample.println_error
                  zero_Arguments "thriftgo" [("-i", "inc")] Sample.w0
                  sample_os_Args eq_refl) "-odd.thrift").
Defined.

(** X7, on [thriftgo -i a --gen go -p p1 --include b -g rust x.thrift]. *)
Lemma Parse_repeatable_flags_witness :
  run_Parse zero_Arguments
    ["thriftgo"; "-i"; "a"; "--gen"; "go"; "-p"; "p1"; "--include"; "b";
     "-g"; "rust"; "x.thrift"] Sample.w0
  = (Done (mkArguments false false false false ""
             ["a"; "b"] ["p1"] ["go"; "rust"] "x.thrift"), Sample.w0).
Proof.
  apply (Parse_repeatable_flags Sample.Version Sample.AllBackend
           Sample.os_Args Sample.Quote Sample.println_error zero_Arguments
           "thriftgo" "x.thrift"
           [("-i", "a"); ("--gen", "go"); ("-p", "p1"); ("--include", "b");
            ("-g", "rust")] Sample.w0 sample_os_Args);
    reflexivity.
Defined.

(** X8, on [thriftgo -q a.thrift], which returns. *)
Lemma Parse_outcomes_witness :
  Sample.w0 = Sample.w0
  /\ AskVersion (mkArguments false false false true "" [] [] [] "a.thrift")
     = false.
Proof.
  apply (Parse_outcomes Sample.Version Sample.AllBackend Sample.os_Args
           Sample.Quote Sample.println_error zero_Arguments "thriftgo"
           ["-q"; "a.thrift"] Sample.w0 Sample.w0
           (Done (mkArguments false false false true "" [] [] [] "a.thrift"))
           sample_os_Args).
  reflexivity.
Defined.

(** X9, on [thriftgo -i more a.thrift] with a receiver that holds an
    include already. *)
Lemma Parse_appends_only_witness :
  extends (mkArguments true false false false "old" ["first"] [] [] "")
          (mkArguments false false false false "" ["first"; "more"] [] []
             "a.thrift").
Proof.
  apply (Parse_appends_only Sample.Version Sample.AllBackend Sample.os_Args
           Sample.Quote Sample.println_error
           (mkArguments true false false false "old" ["first"] [] [] "")
           (mkArguments false false false false "" ["first"; "more"] [] []
              "a.thrift")
           "thriftgo" ["-i"; "more"; "a.thrift"] Sample.w0 Sample.w0
           sample_os_Args).
  reflexivity.
Defined.

(** X10, on [thriftgo -v --out gen -r -p p1 a.thrift] and on
    [thriftgo -v -version a.thrift]. *)
Lemma Parse_options_witness :
  run_Parse zero_Arguments
    ["thriftgo"; "-v"; "--out"; "gen"; "-r"; "-p"; "p1"; "a.thrift"] Sample.w0
  = (Done (mkArguments false true true false "gen" [] ["p1"] [] "a.thrift"),
     Sample.w0)
  /\ run_Parse zero_Arguments ["thriftgo"; "-v"; "-version"; "a.thrift"]
       Sample.w0
     = (Exit 0, mkWorld ["thriftgo 0.0.1" ++ nl] []).
Proof.
  split.
  - apply (Parse_options Sample.Version Sample.AllBackend Sample.os_Args
             Sample.Quote Sample.println_error zero_Arguments "thriftgo"
             "a.thrift"
             [flag_on "-v"; flag_value "--out" "gen"; flag_on "-r";
              flag_value "-p" "p1"] Sample.w0 sample_os_Args);
      reflexivity.
  - apply (Parse_options Sample.Version Sample.AllBackend Sample.os_Args
             Sample.Quote Sample.println_error zero_Arguments "thriftgo"
             "a.thrift" [flag_on "-v"; flag_on "-version"] Sample.w0
             sample_os_Args);
      reflexivity.
Defined.

(** X15, on [thriftgo -o first --out second a.thrift] with a receiver
    that holds another output path. *)
Lemma Parse_then_Output_witness :
  Output (mkArguments false false false false "second" [] [] [] "a.thrift")
         "go"
  = "second".
Proof.
  apply (Parse_then_Output Sample.Version Sample.AllBackend Sample.os_Args
           Sample.Quote Sample.println_error
           (mkArguments false false false false "stale" [] [] [] "")
           (mkArguments false false false false "second" [] [] [] "a.thrift")
           "thriftgo" "a.thrift"
           [flag_value "-o" "first"; flag_value "--out" "second"]
           Sample.w0 Sample.w0 "go" sample_os_Args);
    reflexivity.
Defined.

(** X16, on [thriftgo -q -v a.thrift]. *)
Lemma Parse_then_MakeLogFunc_witness :
  let logs :=
    MakeLogFunc (mkArguments false false true true "" [] [] [] "a.thrift") in
  no_op (backend.Info logs) /\ no_op (backend.Warn logs)
  /\ no_op (backend.MultiWarn logs).
Proof.
  apply (Parse_then_MakeLogFunc Sample.Version Sample.AllBackend
           Sample.os_Args Sample.Quote Sample.println_error
           zero_Arguments
           (mkArguments false false true true "" [] [] [] "a.thrift")
           "thriftgo" "a.thrift" [flag_on "-q"; flag_on "-v"]
           Sample.w0 Sample.w0 sample_os_Args);
    reflexivity.
Defined.

(** *** Runs of the model *)

Example Output_go_then_rust :
  Output zero_Arguments "go" = "./gen-go"
  /\ Output zero_Arguments "rust" = "./gen-rust"
  /\ Output (mkArguments false false false false "out" [] [] [] "") "go" = "out"
  /\ Output (mkArguments false false false false "out" [] [] [] "") "rust"
     = "out".
Proof. repeat split. Qed.

Example Parse_two_positionals :
  run_Parse zero_Arguments ["thriftgo"; "a.thrift"; "b.thrift"] Sample.w0
  = (Exit 2,
     mkWorld ["require exactly 1 argument for the IDL parameter, got: 2"
              ++ nl] []).
Proof. reflexivity. Qed.

Example Parse_version_with_positionals :
  run_Parse zero_Arguments ["thriftgo"; "-version"; "a"; "b"] Sample.w0
  = (Exit 0, mkWorld ["thriftgo 0.0.1" ++ nl] []).
Proof. reflexivity. Qed.

Example Parse_unknown_flag_exits_2 :
  fst (run_Parse zero_Arguments ["thriftgo"; "-x"; "a.thrift"] Sample.w0)
  = Exit 2.
Proof. reflexivity. Qed.

Example Parse_aliases_share_storage :
  run_Parse zero_Arguments
    ["thriftgo"; "-r"; "--recurse=false"; "-g"; "go"; "--gen"; "go";
     "-o"; "x"; "--out"; "y"; "a.thrift"] Sample.w0
  = (Done (mkArguments false false false false "y" [] [] ["go"; "go"]
             "a.thrift"), Sample.w0).
Proof. reflexivity. Qed.

Example logs_verbose_quiet :
  let logs := MakeLogFunc (mkArguments false false true true "" [] [] [] "") in
  backend.Info logs ["x"] Sample.w0 = (Done tt, Sample.w0)
  /\ backend.MultiWarn logs ["x"; "y"] Sample.w0 = (Done tt, Sample.w0).
Proof. split; reflexivity. Qed.

Example logs_verbose :
  let logs := MakeLogFunc (mkArguments false false true false "" [] [] [] "") in
  backend.Info logs ["x"; "y"] Sample.w0
  = (Done tt, mkWorld ["[INFO] x y" ++ nl] [])
  /\ backend.MultiWarn logs ["x"; "y"] Sample.w0
     = (Done tt, mkWorld ["[WARN] x" ++ nl; "[WARN] y" ++ nl] []).
Proof. split; reflexivity. Qed.

Example align_empty_description :
  align [plugin.Option.mk "a" ""; plugin.Option.mk "bb" "y"] Sample.w0
  = (Done ("    a:   " ++ nl ++ "    bb:  y"), Sample.w0).
Proof. reflexivity. Qed.
